(** * ProLIF [prolif/utils.py]: bond-order and formal-charge inference

    A shallow embedding of [update_bonds_and_charges] (utils.py, lines 38-81).
    The routine walks over the atoms of an RDKit molecule, compares the cached
    total valence of each atom with the valences the periodic table allows for
    its element, and then either puts a formal charge on the atom or raises
    the order of the bond to one of its neighbours.

    The molecule is a mutable Python object: here it is the state of a small
    state-and-exception monad which also logs every call made to the toolkit,
    so that the order of the calls can be stated and proved. *)

From Stdlib Require Import Ascii String DecimalString DecimalNat DecimalFacts.
From stdpp Require Import base numbers list gmap strings.

Open Scope Z_scope.

(** ** Data model *)

(** The bond types named by [BONDTYPE_TO_RDKIT] (utils.py, lines 9-14). *)
Inductive BondType := SINGLE | DOUBLE | TRIPLE | AROMATIC.

#[global] Instance BondType_eq_dec : EqDecision BondType.
Proof. solve_decision. Defined.

(** Twice the bond order, so that the aromatic order 1.5 stays an integer. *)
Definition bond_order_x2 (t : BondType) : Z :=
  match t with
  | SINGLE => 2
  | AROMATIC => 3
  | DOUBLE => 4
  | TRIPLE => 6
  end.

(** An atom as this routine sees it: the element, the formal charge, and the
    total valence held in the property cache. [GetTotalValence] reads the
    cache; only [UpdatePropertyCache] writes it. *)
Record Atom := mkAtom {
  AtomicNum : nat;
  FormalCharge : Z;
  TotalValence : Z
}.

Record Bond := mkBond {
  BeginAtomIdx : nat;
  EndAtomIdx : nat;
  GetBondType : BondType
}.

(** Atoms and bonds are addressed by their position, as [GetIdx] does. *)
Record Mol := mkMol {
  atoms : list Atom;
  bonds : list Bond
}.

(** The atom of an index that no atom has; never reached from [GetAtoms] or
    from the neighbours of a well-formed molecule. *)
Definition dummy_atom : Atom := mkAtom 0 0 0.

Definition atom_at (m : Mol) (idx : nat) : Atom :=
  default dummy_atom (atoms m !! idx).

(** Every bond joins two distinct atoms of the molecule. *)
Definition wf_bond (m : Mol) (b : Bond) : Prop :=
  (BeginAtomIdx b < length (atoms m))%nat ∧
  (EndAtomIdx b < length (atoms m))%nat ∧
  BeginAtomIdx b ≠ EndAtomIdx b.

Definition wf_mol (m : Mol) : Prop := Forall (wf_bond m) (bonds m).

(** ** Calls to the toolkit, as they are logged *)

Inductive Event :=
  | EvGetTotalValence (idx : nat)
  | EvGetValenceList (z : nat)
  | EvGetNeighbors (idx : nat)
  | EvGetBondBetweenAtoms (i j : nat)
  | EvSetFormalCharge (idx : nat) (charge : Z)
  | EvSetBondType (bond : nat) (t : BondType)
  | EvUpdatePropertyCache (strict : bool)
  | EvSanitizeMol.

#[global] Instance Event_eq_dec : EqDecision Event.
Proof. solve_decision. Defined.

(** The two calls that change the chemical graph. *)
Definition is_mutation (e : Event) : bool :=
  match e with
  | EvSetFormalCharge _ _ | EvSetBondType _ _ => true
  | _ => false
  end.

Definition is_sanitize (e : Event) : bool :=
  match e with
  | EvSanitizeMol => true
  | _ => false
  end.

(** ** Exceptions *)

Inductive Error :=
  | LookupFailure (z : nat)      (* GetValenceList on an unknown element *)
  | IndexError                   (* electrons[0] on an empty list *)
  | AttributeError               (* a method called on None *)
  | ValenceError                 (* UpdatePropertyCache(strict=True) *)
  | SanitizeFailure.             (* Chem.SanitizeMol *)

Inductive result (A : Type) :=
  | Ok (a : A)
  | Raise (e : Error).
Arguments Ok {A} a.
Arguments Raise {A} e.

(** ** The monad: molecule state, exceptions, call log *)

Definition M (A : Type) : Type := Mol → result A * Mol * list Event.

Definition ret {A} (a : A) : M A := λ m, (Ok a, m, []).

(** The outcome [x] of a computation, with the calls [t] made before it. *)
Definition prepend {A} (t : list Event) (x : result A * Mol * list Event) :
    result A * Mol * list Event :=
  (x.1.1, x.1.2, t ++ x.2).

(** An exception ends the computation; the molecule keeps what was done to
    it in place before the exception was raised. *)
Definition bind {A B} (c : M A) (f : A → M B) : M B :=
  λ m, match c m with
       | (Ok a, m1, t1) => prepend t1 (f a m1)
       | (Raise e, m1, t1) => (Raise e, m1, t1)
       end.

Definition raise {A} (e : Error) : M A := λ m, (Raise e, m, []).
Definition emit (e : Event) : M unit := λ m, (Ok tt, m, [e]).
Definition gets {A} (f : Mol → A) : M A := λ m, (Ok (f m), m, []).
Definition modify (f : Mol → Mol) : M unit := λ m, (Ok tt, f m, []).

#[global] Instance M_ret : MRet M := @ret.
#[global] Instance M_bind : MBind M := λ A B f c, bind c f.

Definition res {A} (x : result A * Mol * list Event) : result A := x.1.1.
Definition mol_of {A} (x : result A * Mol * list Event) : Mol := x.1.2.
Definition log_of {A} (x : result A * Mol * list Event) : list Event := x.2.

(** ** Graph accessors and mutators *)

Definition other_end (idx : nat) (b : Bond) : option nat :=
  if decide (BeginAtomIdx b = idx) then Some (EndAtomIdx b)
  else if decide (EndAtomIdx b = idx) then Some (BeginAtomIdx b)
  else None.

(** [atom.GetNeighbors()]: the far ends of the atom's bonds, in bond order. *)
Definition neighbors_of (m : Mol) (idx : nat) : list nat :=
  omap (other_end idx) (bonds m).

Definition joins (i j : nat) (b : Bond) : bool :=
  bool_decide (BeginAtomIdx b = i ∧ EndAtomIdx b = j) ||
  bool_decide (BeginAtomIdx b = j ∧ EndAtomIdx b = i).

(** Position of the first bond of [bs] between [i] and [j], counted from [k]. *)
Fixpoint find_bond (i j : nat) (k : nat) (bs : list Bond) : option nat :=
  match bs with
  | [] => None
  | b :: bs' => if joins i j b then Some k else find_bond i j (S k) bs'
  end.

(** [mol.GetBondBetweenAtoms(i, j)]: a bond, or [None]. *)
Definition bond_between (m : Mol) (i j : nat) : option nat :=
  find_bond i j 0%nat (bonds m).

Definition set_charge (idx : nat) (charge : Z) (m : Mol) : Mol :=
  mkMol (alter (λ a, mkAtom (AtomicNum a) charge (TotalValence a)) idx (atoms m))
        (bonds m).

Definition set_bond_type (bidx : nat) (t : BondType) (m : Mol) : Mol :=
  mkMol (atoms m)
        (alter (λ b, mkBond (BeginAtomIdx b) (EndAtomIdx b) t) bidx (bonds m)).

Definition bond_type_at (m : Mol) (bidx : nat) : option BondType :=
  GetBondType <$> bonds m !! bidx.

Definition charge_at (m : Mol) (idx : nat) : option Z :=
  FormalCharge <$> atoms m !! idx.

Definition charges (m : Mol) : list Z := FormalCharge <$> atoms m.
Definition bond_types (m : Mol) : list BondType := GetBondType <$> bonds m.

(** ** Set of deficits shared by an atom and a neighbour (line 64) *)

(** [min(s, default=np.nan)]: [None] stands for the [np.nan] sentinel. *)
Definition min_default (s : gset Z) : option Z :=
  foldr (λ x acc, match acc with
                  | None => Some x
                  | Some y => Some (Z.min x y)
                  end) None (elements s).

(** [min(set_electrons.intersection(na_electrons), default=np.nan)] *)
Definition common_electrons (set_electrons : gset Z) (na_electrons : list Z) : option Z :=
  min_default (set_electrons ∩ list_to_set na_electrons).

(** ** The property cache *)

(** The cache of every atom is overwritten with the valence that the valence
    model [calc] derives from the molecule as it stands. *)
Definition recompute (calc : Mol → nat → Z) (m : Mol) : Mol :=
  mkMol (imap (λ i a, mkAtom (AtomicNum a) (FormalCharge a) (calc m i)) (atoms m))
        (bonds m).

(** ** A small toolkit to run the routine on *)

(** The valences of the elements of organic chemistry, as RDKit lists them. *)
Definition organic_valences (z : nat) : option (list Z) :=
  match z with
  | 1%nat => Some [1]
  | 6%nat => Some [4]
  | 7%nat => Some [3]
  | 8%nat => Some [2]
  | 15%nat => Some [3; 5; 7]
  | 16%nat => Some [2; 4; 6]
  | _ => None
  end.

(** Half the sum of the doubled orders of the bonds at an atom. *)
Definition bond_order_sum (m : Mol) (idx : nat) : Z :=
  foldr (λ b acc, if other_end idx b is Some _ then bond_order_x2 (GetBondType b) + acc else acc)
        0 (bonds m) `div` 2.

(** An atom is sound when its cached valence, less its charge, is one of the
    valences of its element. *)
Definition atom_sound (a : Atom) : bool :=
  match organic_valences (AtomicNum a) with
  | Some vs => bool_decide (TotalValence a - FormalCharge a ∈ vs)
  | None => false
  end.

Definition all_sound (m : Mol) : bool := forallb atom_sound (atoms m).

Definition check_sound (m : Mol) : option Mol :=
  let m' := recompute bond_order_sum m in
  if all_sound m' then Some m' else None.

Definition H_ (v : Z) : Atom := mkAtom 1 0 v.
Definition C_ (v : Z) : Atom := mkAtom 6 0 v.
Definition N_ (v : Z) : Atom := mkAtom 7 0 v.
Definition O_ (v : Z) : Atom := mkAtom 8 0 v.

(** Formaldehyde as a trajectory reader hands it over: single bonds only. *)
Definition formaldehyde_in : Mol :=
  mkMol [C_ 3; O_ 1; H_ 1; H_ 1]
        [mkBond 0 1 SINGLE; mkBond 0 2 SINGLE; mkBond 0 3 SINGLE].

(** Formaldehyde with its double bond. *)
Definition formaldehyde : Mol :=
  mkMol [C_ 4; O_ 2; H_ 1; H_ 1]
        [mkBond 0 1 DOUBLE; mkBond 0 2 SINGLE; mkBond 0 3 SINGLE].

(** Ammonium: a nitrogen with four hydrogens. *)
Definition ammonium_in : Mol :=
  mkMol [N_ 4; H_ 1; H_ 1; H_ 1; H_ 1]
        [mkBond 0 1 SINGLE; mkBond 0 2 SINGLE; mkBond 0 3 SINGLE; mkBond 0 4 SINGLE].

(** A methyl group with nothing on its fourth valence. *)
Definition methyl_in : Mol :=
  mkMol [C_ 3; H_ 1; H_ 1; H_ 1]
        [mkBond 0 1 SINGLE; mkBond 0 2 SINGLE; mkBond 0 3 SINGLE].

(** A carbon with a triple bond to a phosphorus, which has a single bond to
    a nitrogen; no hydrogens. The P-N bond comes first in the bond list. *)
Definition P_ (v : Z) : Atom := mkAtom 15 0 v.
Definition phosphaalkyne_in : Mol :=
  mkMol [C_ 3; P_ 4; N_ 1] [mkBond 1 2 SINGLE; mkBond 0 1 TRIPLE].

(** Two sulfur atoms with three bonds each: H2S-SH. *)
Definition S_ (v : Z) : Atom := mkAtom 16 0 v.
Definition sulfurs_in : Mol :=
  mkMol [S_ 3; S_ 3; H_ 1; H_ 1; H_ 1; H_ 1]
        [mkBond 0 1 SINGLE; mkBond 0 2 SINGLE; mkBond 0 3 SINGLE;
         mkBond 1 4 SINGLE; mkBond 1 5 SINGLE].

(** Formaldehyde with the two C-H bonds listed before the C-O bond. *)
Definition formaldehyde_h_first_in : Mol :=
  mkMol [C_ 3; O_ 1; H_ 1; H_ 1]
        [mkBond 0 2 SINGLE; mkBond 0 3 SINGLE; mkBond 0 1 SINGLE].

(** A lone oxygen atom. *)
Definition oxygen_in : Mol := mkMol [O_ 0] [].

(** A carbon bonded to an iron atom, an element [organic_valences] does not
    know. *)
Definition iron_carbon_in : Mol :=
  mkMol [C_ 1; mkAtom 26 0 1] [mkBond 0 1 SINGLE].

(** ** The other helpers of [utils.py] *)

(** *** [get_resnumber] (lines 83-85)

    Residue names are taken to be ASCII strings. *)











(** *** The charge loop of [pdbqt_to_mol2] (lines 30-34)

    The loop runs on the partial charges [mH] of the atoms of the molecule
    with hydrogens; a partial charge is a value of any type [C], since the
    loop copies charges and never computes with them. [pairs] is what is
    left of [zip(mH.atoms, m.atoms)], an atom of [mH] being given by its
    position, and [i] is the count of [enumerate]. *)
Fixpoint assign_old_charges {C : Type} (len_old : nat) (i : nat)
    (pairs : list (nat * C)) (mH : list C) : list C :=
  match pairs with
  | [] => mH
  | (atom, old) :: pairs' =>
      if decide (i = len_old) then mH
      else assign_old_charges len_old (S i) pairs' (<[atom := old]> mH)
  end.

Definition reassign_charges {C : Type} (mH old : list C) : list C :=
  assign_old_charges (length old) 0 (zip (seq 0 (length mH)) old) mH.

(** ** The toolkit

    RDKit is not part of the repository. Its periodic table, the valence
    model behind the property cache and the sanitizer are taken as given:
    any table, any valence model and any sanitizer will do. *)

Section RDKit.

(** [PERIODIC_TABLE.GetValenceList]: [None] for an unknown atomic number. *)
Variable valence_table : nat → option (list Z).

(** The total valence of an atom as the toolkit derives it from the graph. *)
Variable calc_valence : Mol → nat → Z.

(** What the strict form of the recompute accepts. *)
Variable valence_allowed : Mol → bool.

(** [Chem.SanitizeMol]: the sanitized molecule, or [None] when it raises. *)
Variable sanitize : Mol → option Mol.

Definition GetTotalValence (idx : nat) : M Z :=
  emit (EvGetTotalValence idx);;
  gets (λ m, TotalValence (atom_at m idx)).

Definition GetAtomicNum (idx : nat) : M nat :=
  gets (λ m, AtomicNum (atom_at m idx)).

Definition GetValenceList (z : nat) : M (list Z) :=
  emit (EvGetValenceList z);;
  match valence_table z with
  | Some valences => mret valences
  | None => raise (LookupFailure z)
  end.

Definition GetNeighbors (idx : nat) : M (list nat) :=
  emit (EvGetNeighbors idx);;
  gets (λ m, neighbors_of m idx).

Definition GetBondBetweenAtoms (i j : nat) : M (option nat) :=
  emit (EvGetBondBetweenAtoms i j);;
  gets (λ m, bond_between m i j).

Definition SetBondType (bond : option nat) (t : BondType) : M unit :=
  match bond with
  | Some b => emit (EvSetBondType b t);; modify (set_bond_type b t)
  | None => raise AttributeError
  end.

Definition SetFormalCharge (idx : nat) (charge : Z) : M unit :=
  emit (EvSetFormalCharge idx charge);;
  modify (set_charge idx charge).

Definition UpdatePropertyCache (strict : bool) : M unit :=
  emit (EvUpdatePropertyCache strict);;
  ok ← gets valence_allowed;
  if strict && negb ok then raise ValenceError else modify (recompute calc_valence).

Definition SanitizeMol : M unit :=
  emit EvSanitizeMol;;
  r ← gets sanitize;
  match r with
  | Some m' => modify (λ _, m')
  | None => raise SanitizeFailure
  end.

(** ** The routine *)

(** [electrons[0]] *)
Definition first_of (electrons : list Z) : M Z :=
  match electrons with
  | e :: _ => mret e
  | [] => raise IndexError
  end.

(** Lines 44-46, and again lines 61-63 for a neighbour:
    [vtot = atom.GetTotalValence()],
    [valences = PERIODIC_TABLE.GetValenceList(atom.GetAtomicNum())],
    [electrons = [ v - vtot for v in valences ]]. *)
Definition electrons_of (idx : nat) : M (list Z) :=
  vtot ← GetTotalValence idx;
  z ← GetAtomicNum idx;
  valences ← GetValenceList z;
  mret ((λ v, v - vtot) <$> valences).

(** Lines 60-80: the loop over [enumerate(neighbors, start=1)], from
    position [i] on. Leaving the recursion is the [break]. *)
Fixpoint scan_neighbors (idx : nat) (electrons : list Z) (len : nat)
    (i : nat) (rest : list nat) : M unit :=
  match rest with
  | [] => mret tt
  | na :: rest' =>
      na_electrons ← electrons_of na;
      match common_electrons (list_to_set electrons) na_electrons with
      | Some 0 => scan_neighbors idx electrons len (S i) rest'
      | None =>
          (if decide (i = len) then
             e0 ← first_of electrons;
             SetFormalCharge idx (- e0);;
             UpdatePropertyCache false
           else mret tt);;
          scan_neighbors idx electrons len (S i) rest'
      | Some common =>
          bond ← GetBondBetweenAtoms idx na;
          (if decide (common = 1) then SetBondType bond DOUBLE
           else if decide (common = 2) then SetBondType bond TRIPLE
           else mret tt);;
          UpdatePropertyCache false
      end
  end.

(** Lines 44-80: the body of the loop over the atoms. *)
Definition visit_atom (idx : nat) : M unit :=
  electrons ← electrons_of idx;
  if bool_decide (length electrons = 1%nat) &&
     bool_decide (default 0 (head electrons) < 0)
  then
    e0 ← first_of electrons;
    SetFormalCharge idx (- e0);;
    UpdatePropertyCache false
  else
    neighbors ← GetNeighbors idx;
    scan_neighbors idx electrons (length neighbors) 1%nat neighbors.

(** [for atom in mol.GetAtoms(): ...] *)
Fixpoint for_atoms (idxs : list nat) : M unit :=
  match idxs with
  | [] => mret tt
  | idx :: idxs' => visit_atom idx;; for_atoms idxs'
  end.

(** Lines 43-80: the pass over all atoms. *)
Definition repair_pass : M unit :=
  n ← gets (λ m, length (atoms m));
  for_atoms (seq 0 n).

(** Lines 43-81. *)
Definition update_bonds_and_charges : M unit :=
  repair_pass;;
  SanitizeMol.

(** ** Reading the call log *)

(** What a logged call does to the molecule. A sanitizer that raises leaves
    the molecule as it was handed over. *)
Definition apply_event (e : Event) (m : Mol) : Mol :=
  match e with
  | EvSetFormalCharge idx charge => set_charge idx charge m
  | EvSetBondType b t => set_bond_type b t m
  | EvUpdatePropertyCache strict =>
      if strict && negb (valence_allowed m) then m else recompute calc_valence m
  | EvSanitizeMol => default m (sanitize m)
  | _ => m
  end.

Definition replay (log : list Event) (m : Mol) : Mol :=
  foldl (λ m e, apply_event e m) m log.

(** The calls the loop over the atoms may make: no sanitizer, no strict
    recompute, and no bond type other than double or triple. *)
Definition pass_event (e : Event) : bool :=
  match e with
  | EvSanitizeMol => false
  | EvUpdatePropertyCache strict => negb strict
  | EvSetBondType _ t => bool_decide (t = DOUBLE ∨ t = TRIPLE)
  | _ => true
  end.

(** Every mutation is followed at once by a permissive recompute. *)
Fixpoint mutations_recomputed (log : list Event) : bool :=
  match log with
  | [] => true
  | e :: log' =>
      (if is_mutation e
       then match log' with
            | EvUpdatePropertyCache false :: _ => true
            | _ => false
            end
       else true) && mutations_recomputed log'
  end.

(** A mutation of the visit of atom [idx] is a charge on [idx] itself or a
    new type for a bond that ends in [idx]. *)
Definition acts_on (m : Mol) (idx : nat) (e : Event) : Prop :=
  match e with
  | EvSetFormalCharge j _ => j = idx
  | EvSetBondType b _ =>
      ∃ bd, bonds m !! b = Some bd ∧ is_Some (other_end idx bd)
  | _ => True
  end.

Definition mutation_count (log : list Event) : nat :=
  length (filter (λ e, is_mutation e = true) log).

(** The end of the log of a visit that acts: one mutation and the
    permissive recompute after it. *)
Definition closing_action (idx : nat) (act : list Event) : Prop :=
  act = [] ∨
  (∃ charge, act = [EvSetFormalCharge idx charge; EvUpdatePropertyCache false]) ∨
  (∃ b t, act = [EvSetBondType b t; EvUpdatePropertyCache false]).

(** A log without mutation, closed by at most one action. *)
Definition action_last (idx : nat) (log : list Event) : Prop :=
  ∃ pre act,
    log = pre ++ act ∧ mutation_count pre = 0%nat ∧ closing_action idx act.

Definition sanitize_count (log : list Event) : nat :=
  length (filter (λ e, is_sanitize e = true) log).

(** The log tells all that happened to the molecule, and is a log of the
    loop over the atoms. *)
Definition well_logged {A} (x : result A * Mol * list Event) (m : Mol) : Prop :=
  mol_of x = replay (log_of x) m ∧
  forallb pass_event (log_of x) = true ∧
  mutations_recomputed (log_of x) = true.

(** ** Outcomes and properties the proofs speak of *)

(** The calls made to find the deficits of an atom. *)
Definition reads (m : Mol) (idx : nat) : list Event :=
  [EvGetTotalValence idx; EvGetValenceList (AtomicNum (atom_at m idx))].

(** [[ v - vtot for v in valences ]] for the cached valence of an atom. *)
Definition deficits (m : Mol) (idx : nat) (valences : list Z) : list Z :=
  (λ v, v - TotalValence (atom_at m idx)) <$> valences.

(** What the bond branch (lines 74-80) does for a shared deficit of 1 or 2. *)
Definition upgrade_outcome (idx na : nat) (t : BondType) (m : Mol) :
    result unit * Mol * list Event :=
  match bond_between m idx na with
  | Some b =>
      (Ok tt, recompute calc_valence (set_bond_type b t m),
       reads m na ++ [EvGetBondBetweenAtoms idx na; EvSetBondType b t;
                      EvUpdatePropertyCache false])
  | None => (Raise AttributeError, m, reads m na ++ [EvGetBondBetweenAtoms idx na])
  end.

(** What the fallback (lines 69-71) does. *)
Definition charge_calls (idx : nat) (e0 : Z) : list Event :=
  [EvSetFormalCharge idx (- e0); EvUpdatePropertyCache false].

(** The only exception the loop over the atoms lets through is the lookup
    failure of the periodic table. *)
Definition only_lookup_failure {A} (r : result A) : Prop :=
  match r with
  | Ok _ => True
  | Raise e => ∃ z, e = LookupFailure z ∧ valence_table z = None
  end.

(** The reading of "bond orders never decrease" for one molecule: no bond
    has a lower order after the pass than before. *)
Definition bond_orders_never_decrease (m : Mol) : Prop :=
  ∀ b t0 t1,
    bond_type_at m b = Some t0 →
    bond_type_at (mol_of (repair_pass m)) b = Some t1 →
    bond_order_x2 t0 ≤ bond_order_x2 t1.

(** The cached valence of every atom is one of the valences of its element:
    0 is among its deficits. *)
Definition settled (m : Mol) : Prop :=
  ∀ idx a, atoms m !! idx = Some a →
    ∃ valences, valence_table (AtomicNum a) = Some valences ∧
                TotalValence a ∈ valences.

(** ** Further notions: topology, skipped neighbours, charges set *)

(** The two atoms a bond joins. *)
Definition bond_ends (b : Bond) : nat * nat := (BeginAtomIdx b, EndAtomIdx b).

(** [m'] has the atoms of [m], element by element, and the bonds of [m],
    between the same atoms: at most charges, cached valences and bond types
    differ. *)
Definition same_topology (m m' : Mol) : Prop :=
  AtomicNum <$> atoms m' = AtomicNum <$> atoms m ∧
  bond_ends <$> bonds m' = bond_ends <$> bonds m.

(** A neighbour the loop passes over when it is not the last one: its
    element is known, and its deficits share the least value 0 with
    [electrons] or share nothing. *)
Definition skipped (m : Mol) (electrons : list Z) (na : nat) : Prop :=
  ∃ valences,
    valence_table (AtomicNum (atom_at m na)) = Some valences ∧
    (common_electrons (list_to_set electrons) (deficits m na valences) = Some 0 ∨
     common_electrons (list_to_set electrons) (deficits m na valences) = None).

(** The test of line 52: [(len(electrons)==1) and (electrons[0]<0)]. *)
Definition single_negative (electrons : list Z) : bool :=
  bool_decide (length electrons = 1%nat) &&
  bool_decide (default 0 (head electrons) < 0).

(** The reads made for a run of neighbours. *)
Definition reads_all (m : Mol) (nas : list nat) : list Event :=
  nas ≫= reads m.

(** The periodic table knows the element of every atom of the molecule. *)
Definition known_elements (m : Mol) : Prop :=
  ∀ idx a, atoms m !! idx = Some a → is_Some (valence_table (AtomicNum a)).

Definition is_charge_on (idx : nat) (e : Event) : bool :=
  match e with
  | EvSetFormalCharge j _ => bool_decide (j = idx)
  | _ => false
  end.

(** How often the formal charge of atom [idx] is set in a log. *)
Definition charge_sets (idx : nat) (log : list Event) : nat :=
  length (filter (λ e, is_charge_on idx e = true) log).

(** ** What the mutators leave alone *)

Lemma charges_recompute calc m : charges (recompute calc m) = charges m.
Proof.
  unfold charges, recompute; simpl. apply list_eq; intros k.
  rewrite !list_lookup_fmap, list_lookup_imap.
  by destruct (atoms m !! k).
Qed.

Lemma charge_at_recompute calc m idx :
  charge_at (recompute calc m) idx = charge_at m idx.
Proof.
  unfold charge_at. rewrite <- !list_lookup_fmap.
  fold (charges (recompute calc m)). by rewrite charges_recompute.
Qed.

Lemma charge_at_set_charge m idx c :
  (idx < length (atoms m))%nat → charge_at (set_charge idx c m) idx = Some c.
Proof.
  intros [a Ha]%lookup_lt_is_Some. unfold charge_at, set_charge; simpl.
  by rewrite list_lookup_alter_eq, Ha.
Qed.

Lemma charge_at_set_charge_ne m idx j c :
  idx ≠ j → charge_at (set_charge idx c m) j = charge_at m j.
Proof.
  intros Hne. unfold charge_at, set_charge; simpl.
  by rewrite list_lookup_alter_ne.
Qed.

Lemma bond_type_at_set_bond_type m b t :
  is_Some (bonds m !! b) → bond_type_at (set_bond_type b t m) b = Some t.
Proof.
  intros [bd Hbd]. unfold bond_type_at, set_bond_type; simpl.
  by rewrite list_lookup_alter_eq, Hbd.
Qed.

Lemma bond_type_at_set_bond_type_ne m b b' t :
  b ≠ b' → bond_type_at (set_bond_type b t m) b' = bond_type_at m b'.
Proof.
  intros Hne. unfold bond_type_at, set_bond_type; simpl.
  by rewrite list_lookup_alter_ne.
Qed.

(** ** Bonds and neighbours *)

Lemma joins_other_end i j bd : joins i j bd = true → is_Some (other_end i bd).
Proof.
  unfold joins, other_end. intros H.
  destruct (decide (BeginAtomIdx bd = i)); [eauto|].
  destruct (decide (EndAtomIdx bd = i)); [eauto|].
  apply orb_true_iff in H as [H|H]; apply bool_decide_eq_true in H;
    destruct H; congruence.
Qed.

Lemma other_end_joins i j bd : other_end i bd = Some j → joins i j bd = true.
Proof.
  unfold joins, other_end. intros H. apply orb_true_iff.
  destruct (decide (BeginAtomIdx bd = i)).
  - left. apply bool_decide_eq_true. split; congruence.
  - destruct (decide (EndAtomIdx bd = i)); [|done].
    right. apply bool_decide_eq_true. split; congruence.
Qed.

Lemma find_bond_Some i j bs : ∀ k b,
  find_bond i j k bs = Some b →
  ∃ bd, (k ≤ b)%nat ∧ bs !! (b - k)%nat = Some bd ∧ joins i j bd = true.
Proof.
  induction bs as [|bd bs IH]; intros k b; simpl; [done|].
  destruct (joins i j bd) eqn:Hj.
  - intros [= <-]. exists bd. by rewrite Nat.sub_diag.
  - intros (bd' & Hk & Hbd & Hj')%IH. exists bd'. split_and!; [lia| |done].
    by replace (b - k)%nat with (S (b - S k)) by lia.
Qed.

Lemma find_bond_is_Some i j bs bd : ∀ k,
  bd ∈ bs → joins i j bd = true → is_Some (find_bond i j k bs).
Proof.
  induction bs as [|bd' bs IH]; intros k Hin Hj; [by apply elem_of_nil in Hin|].
  simpl. destruct (joins i j bd') eqn:Hj'; [eauto|].
  apply elem_of_cons in Hin as [->|Hin]; [congruence|by apply IH].
Qed.

(** A neighbour is joined to the atom by a bond, which
    [GetBondBetweenAtoms] finds. *)
Lemma neighbor_has_bond m idx na :
  na ∈ neighbors_of m idx →
  ∃ b bd, bond_between m idx na = Some b ∧ bonds m !! b = Some bd ∧
          joins idx na bd = true.
Proof.
  unfold neighbors_of, bond_between.
  intros (bd & Hin & Hoe)%list_elem_of_omap.
  destruct (find_bond_is_Some idx na (bonds m) bd 0%nat Hin) as [b Hb].
  { by apply other_end_joins. }
  destruct (find_bond_Some _ _ _ _ _ Hb) as (bd' & _ & Hbd' & Hj).
  rewrite Nat.sub_0_r in Hbd'. eauto.
Qed.

(** ** Unfolding the routine *)

Lemma res_prepend {A} t (x : result A * Mol * list Event) :
  res (prepend t x) = res x.
Proof. reflexivity. Qed.

Lemma mol_of_prepend {A} t (x : result A * Mol * list Event) :
  mol_of (prepend t x) = mol_of x.
Proof. reflexivity. Qed.

Lemma log_of_prepend {A} t (x : result A * Mol * list Event) :
  log_of (prepend t x) = t ++ log_of x.
Proof. reflexivity. Qed.

Lemma prepend_nil {A} (x : result A * Mol * list Event) : prepend [] x = x.
Proof. by destruct x as [[r m] t]. Qed.

Lemma prepend_prepend {A} t1 t2 (x : result A * Mol * list Event) :
  prepend t1 (prepend t2 x) = prepend (t1 ++ t2) x.
Proof. unfold prepend. simpl. by rewrite (assoc_L (++)). Qed.

Lemma bind_eq {A B} (c : M A) (f : A → M B) m :
  (c ≫= f) m = match c m with
                | (Ok a, m1, t1) => prepend t1 (f a m1)
                | (Raise e, m1, t1) => (Raise e, m1, t1)
                end.
Proof. reflexivity. Qed.

Lemma electrons_of_eq idx m :
  electrons_of idx m =
  match valence_table (AtomicNum (atom_at m idx)) with
  | Some valences => (Ok (deficits m idx valences), m, reads m idx)
  | None => (Raise (LookupFailure (AtomicNum (atom_at m idx))), m, reads m idx)
  end.
Proof.
  unfold electrons_of, GetValenceList. rewrite !bind_eq. simpl.
  rewrite !bind_eq. simpl.
  by destruct (valence_table _).
Qed.

Lemma scan_neighbors_nil idx electrons len i m :
  scan_neighbors idx electrons len i [] m = (Ok tt, m, []).
Proof. reflexivity. Qed.

(** One turn of the loop over the neighbours, case by case. *)
Lemma scan_neighbors_cons idx electrons len i na rest m :
  scan_neighbors idx electrons len i (na :: rest) m =
  match valence_table (AtomicNum (atom_at m na)) with
  | None => (Raise (LookupFailure (AtomicNum (atom_at m na))), m, reads m na)
  | Some valences =>
      match common_electrons (list_to_set electrons) (deficits m na valences) with
      | Some 0 =>
          prepend (reads m na) (scan_neighbors idx electrons len (S i) rest m)
      | None =>
          if decide (i = len) then
            match electrons with
            | e0 :: _ =>
                prepend (reads m na ++ charge_calls idx e0)
                  (scan_neighbors idx electrons len (S i) rest
                     (recompute calc_valence (set_charge idx (- e0) m)))
            | [] => (Raise IndexError, m, reads m na)
            end
          else prepend (reads m na) (scan_neighbors idx electrons len (S i) rest m)
      | Some common =>
          if decide (common = 1) then upgrade_outcome idx na DOUBLE m
          else if decide (common = 2) then upgrade_outcome idx na TRIPLE m
          else (Ok tt, recompute calc_valence m,
                reads m na ++ [EvGetBondBetweenAtoms idx na;
                               EvUpdatePropertyCache false])
      end
  end.
Proof.
  cbn [scan_neighbors]. rewrite bind_eq, electrons_of_eq.
  destruct (valence_table _) as [valences|]; [|done].
  destruct (common_electrons _ _) as [common|].
  - destruct (decide (common = 0)) as [->|Hne0]; [done|].
    transitivity (prepend (reads m na)
      ((bond ← GetBondBetweenAtoms idx na;
        (if decide (common = 1) then SetBondType bond DOUBLE
         else if decide (common = 2) then SetBondType bond TRIPLE
         else mret tt);;
        UpdatePropertyCache false) m)).
    { by destruct common. }
    transitivity (if decide (common = 1) then upgrade_outcome idx na DOUBLE m
          else if decide (common = 2) then upgrade_outcome idx na TRIPLE m
          else (Ok tt, recompute calc_valence m,
                reads m na ++ [EvGetBondBetweenAtoms idx na;
                               EvUpdatePropertyCache false])).
    2: { by destruct common. }
    unfold upgrade_outcome, GetBondBetweenAtoms.
    rewrite !bind_eq; simpl.
    repeat case_decide; destruct (bond_between m idx na); reflexivity.
  - case_decide.
    + destruct electrons as [|e0 ?]; [reflexivity|].
      rewrite !bind_eq; simpl. by rewrite prepend_prepend.
    + rewrite !bind_eq; simpl. by rewrite prepend_nil.
Qed.

(** One visit (lines 44-80), case by case. *)
Lemma visit_atom_eq idx m :
  visit_atom idx m =
  match valence_table (AtomicNum (atom_at m idx)) with
  | None => (Raise (LookupFailure (AtomicNum (atom_at m idx))), m, reads m idx)
  | Some valences =>
      let electrons := deficits m idx valences in
      if bool_decide (length electrons = 1%nat) &&
         bool_decide (default 0 (head electrons) < 0)
      then
        match electrons with
        | e0 :: _ =>
            (Ok tt, recompute calc_valence (set_charge idx (- e0) m),
             reads m idx ++ charge_calls idx e0)
        | [] => (Raise IndexError, m, reads m idx)
        end
      else
        prepend (reads m idx ++ [EvGetNeighbors idx])
          (scan_neighbors idx electrons (length (neighbors_of m idx)) 1%nat
             (neighbors_of m idx) m)
  end.
Proof.
  unfold visit_atom. rewrite bind_eq, electrons_of_eq.
  destruct (valence_table _) as [valences|]; [|done].
  cbv zeta. destruct (_ && _).
  - destruct (deficits m idx valences) as [|e0 ?]; reflexivity.
  - unfold GetNeighbors. rewrite !bind_eq; simpl.
    by rewrite prepend_prepend.
Qed.

Lemma for_atoms_nil m : for_atoms [] m = (Ok tt, m, []).
Proof. reflexivity. Qed.

Lemma for_atoms_cons idx idxs m :
  for_atoms (idx :: idxs) m =
  match visit_atom idx m with
  | (Ok _, m1, t1) => prepend t1 (for_atoms idxs m1)
  | (Raise e, m1, t1) => (Raise e, m1, t1)
  end.
Proof. reflexivity. Qed.

Lemma repair_pass_eq m :
  repair_pass m = for_atoms (seq 0 (length (atoms m))) m.
Proof. unfold repair_pass. rewrite bind_eq. simpl. apply prepend_nil. Qed.

Lemma SanitizeMol_eq m :
  SanitizeMol m =
  match sanitize m with
  | Some m' => (Ok tt, m', [EvSanitizeMol])
  | None => (Raise SanitizeFailure, m, [EvSanitizeMol])
  end.
Proof.
  unfold SanitizeMol. rewrite !bind_eq; simpl. rewrite bind_eq; simpl.
  by destruct (sanitize m).
Qed.

Lemma update_bonds_and_charges_eq m :
  update_bonds_and_charges m =
  match repair_pass m with
  | (Ok _, m1, t1) => prepend t1 (SanitizeMol m1)
  | (Raise e, m1, t1) => (Raise e, m1, t1)
  end.
Proof. reflexivity. Qed.

(** ** The shared deficit is the least common one *)

Lemma min_default_Some s c :
  min_default s = Some c → c ∈ s ∧ ∀ x, x ∈ s → c ≤ x.
Proof.
  unfold min_default. setoid_rewrite <- elem_of_elements.
  generalize (elements s) as l. intros l. revert c.
  induction l as [|y l IH]; intros c; simpl; [done|].
  destruct (foldr _ None l) as [c'|] eqn:Hl.
  - intros [= <-]. destruct (IH c' eq_refl) as [Hin Hle]. split.
    + destruct (Z.min_spec y c') as [[_ ->]|[_ ->]]; [left|by right].
    + intros x [->|Hx]%elem_of_cons; [lia|]. specialize (Hle x Hx). lia.
  - intros [= <-]. split; [left|].
    intros x [->|Hx]%elem_of_cons; [lia|].
    destruct l as [|z l]; [by apply elem_of_nil in Hx|].
    simpl in Hl. by destruct (foldr _ None l).
Qed.

Lemma min_default_None s : min_default s = None → s = ∅.
Proof.
  unfold min_default. intros H. apply leibniz_equiv, elements_empty_inv.
  destruct (elements s) as [|y l]; [done|].
  simpl in H. by destruct (foldr _ None l).
Qed.

Lemma common_electrons_Some electrons na_electrons c :
  common_electrons (list_to_set electrons) na_electrons = Some c →
  c ∈ electrons ∧ c ∈ na_electrons ∧
  ∀ x, x ∈ electrons → x ∈ na_electrons → c ≤ x.
Proof.
  intros [Hin Hle]%min_default_Some.
  apply elem_of_intersection in Hin as [H1 H2].
  rewrite elem_of_list_to_set in H1, H2. split_and!; [done..|].
  intros x Hx1 Hx2. apply Hle, elem_of_intersection.
  by rewrite !elem_of_list_to_set.
Qed.

Lemma common_electrons_None electrons na_electrons x :
  common_electrons (list_to_set electrons) na_electrons = None →
  x ∈ electrons → x ∈ na_electrons → False.
Proof.
  intros Hs%min_default_None Hx1 Hx2.
  assert (x ∈ (∅ : gset Z)) as Hx; [|by apply not_elem_of_empty in Hx].
  rewrite <- Hs. apply elem_of_intersection. by rewrite !elem_of_list_to_set.
Qed.

(** ** The log of the pass *)

Lemma replay_app t1 t2 m : replay (t1 ++ t2) m = replay t2 (replay t1 m).
Proof. apply foldl_app. Qed.

Lemma mutations_recomputed_app t1 t2 :
  mutations_recomputed t1 = true →
  mutations_recomputed t2 = true →
  mutations_recomputed (t1 ++ t2) = true.
Proof.
  intros H1 H2. induction t1 as [|e t1 IH]; [done|].
  simpl in *. apply andb_true_iff in H1 as [He H1].
  rewrite (IH H1), andb_true_r.
  destruct (is_mutation e); [|done].
  by destruct t1 as [|[] ?].
Qed.

Lemma well_logged_ret {A} (r : result A) m : well_logged (r, m, []) m.
Proof. by split_and!. Qed.

Lemma well_logged_prepend {A} t (x : result A * Mol * list Event) m :
  forallb pass_event t = true →
  mutations_recomputed t = true →
  well_logged x (replay t m) →
  well_logged (prepend t x) m.
Proof.
  intros Ht1 Ht2 (Hm & Hx1 & Hx2). unfold well_logged, prepend, mol_of, log_of in *.
  simpl. rewrite replay_app, forallb_app, Ht1, Hx1.
  split_and!; [done..|]. by apply mutations_recomputed_app.
Qed.

Lemma well_logged_calls {A} t (r : result A) m m' :
  forallb pass_event t = true →
  mutations_recomputed t = true →
  m' = replay t m →
  well_logged (r, m', t) m.
Proof. intros Ht1 Ht2 ->. by split_and!. Qed.

Lemma well_logged_bind {A} (x : result A * Mol * list Event) (k : Mol → result A * Mol * list Event) m :
  well_logged x m →
  (∀ m1, well_logged (k m1) m1) →
  well_logged (match x with
               | (Ok _, m1, t1) => prepend t1 (k m1)
               | (Raise e, m1, t1) => (Raise e, m1, t1)
               end) m.
Proof.
  destruct x as [[[a|e] m1] t1]; intros (Hm & H1 & H2) Hk.
  - unfold mol_of, log_of in *; simpl in *. subst m1.
    by apply well_logged_prepend.
  - by split_and!.
Qed.

Lemma scan_neighbors_well_logged idx electrons len rest :
  ∀ i m, well_logged (scan_neighbors idx electrons len i rest m) m.
Proof.
  induction rest as [|na rest IH]; intros i m; [apply well_logged_ret|].
  rewrite scan_neighbors_cons.
  destruct (valence_table _) as [valences|]; [|by apply well_logged_calls].
  destruct (common_electrons _ _) as [common|].
  - destruct (decide (common = 0)) as [->|Hne0].
    { apply well_logged_prepend; [done..|apply IH]. }
    assert (well_logged
      (if decide (common = 1) then upgrade_outcome idx na DOUBLE m
       else if decide (common = 2) then upgrade_outcome idx na TRIPLE m
       else (Ok tt, recompute calc_valence m,
             reads m na ++ [EvGetBondBetweenAtoms idx na;
                            EvUpdatePropertyCache false])) m) as Hw.
    { unfold upgrade_outcome.
      repeat case_decide; destruct (bond_between m idx na);
        by apply well_logged_calls. }
    by destruct common.
  - case_decide.
    + destruct electrons as [|e0 ?]; [by apply well_logged_calls|].
      apply well_logged_prepend; [done..|apply IH].
    + apply well_logged_prepend; [done..|apply IH].
Qed.

Lemma visit_atom_well_logged idx m : well_logged (visit_atom idx m) m.
Proof.
  rewrite visit_atom_eq.
  destruct (valence_table _) as [valences|]; [|by apply well_logged_calls].
  cbv zeta. destruct (_ && _).
  - destruct (deficits m idx valences) as [|e0 ?]; by apply well_logged_calls.
  - apply well_logged_prepend; [done..|apply scan_neighbors_well_logged].
Qed.

Lemma for_atoms_well_logged idxs : ∀ m, well_logged (for_atoms idxs m) m.
Proof.
  induction idxs as [|idx idxs IH]; intros m; [apply well_logged_ret|].
  rewrite for_atoms_cons.
  apply (well_logged_bind (visit_atom idx m) (for_atoms idxs));
    [apply visit_atom_well_logged|apply IH].
Qed.

Lemma repair_pass_well_logged m : well_logged (repair_pass m) m.
Proof. rewrite repair_pass_eq. apply for_atoms_well_logged. Qed.

(** ** The deficit calculation *)

(** C5. The deficit calculation (lines 44-46 and 61-63) returns, for every
    valence [v] that the periodic table lists for the element of the atom and
    in the order of that list, [v] minus the cached total valence of the atom.
    It leaves the molecule as it is and calls no mutator. It raises only when
    the table does not know the atomic number, and then it raises that lookup
    failure. *)
Theorem electrons_of_spec idx m :
  let x := electrons_of idx m in
  let z := AtomicNum (atom_at m idx) in
  let vtot := TotalValence (atom_at m idx) in
  mol_of x = m ∧
  mutation_count (log_of x) = 0%nat ∧
  log_of x = [EvGetTotalValence idx; EvGetValenceList z] ∧
  match valence_table z with
  | Some valences =>
      res x = Ok ((λ v, v - vtot) <$> valences) ∧
      ∀ k v, valences !! k = Some v →
             ∃ es, res x = Ok es ∧ es !! k = Some (v - vtot)
  | None => res x = Raise (LookupFailure z)
  end.
Proof.
  cbv zeta. rewrite electrons_of_eq.
  destruct (valence_table _) as [valences|]; [|done].
  split_and!; [done..|].
  intros k v Hk. eexists; split; [done|].
  unfold deficits. by rewrite list_lookup_fmap, Hk.
Qed.

(** ** The visit of one atom *)

(** C2. When the element of the atom has the single valence [V] and the
    cached total valence [T] of the atom is above [V], the visit sets the
    formal charge of the atom to [T - V], recomputes the cache in the
    permissive form at once, and does nothing else: it does not ask for the
    neighbours, reads the valence of no other atom, and leaves every bond and
    the charge of every other atom as it was. *)
Theorem single_option_negative_charge idx m V :
  let T := TotalValence (atom_at m idx) in
  let z := AtomicNum (atom_at m idx) in
  valence_table z = Some [V] →
  T > V →
  let x := visit_atom idx m in
  res x = Ok tt ∧
  mol_of x = recompute calc_valence (set_charge idx (T - V) m) ∧
  log_of x = [EvGetTotalValence idx; EvGetValenceList z;
              EvSetFormalCharge idx (T - V); EvUpdatePropertyCache false] ∧
  bonds (mol_of x) = bonds m ∧
  ((idx < length (atoms m))%nat → charge_at (mol_of x) idx = Some (T - V)) ∧
  (∀ j, j ≠ idx → charge_at (mol_of x) j = charge_at m j).
Proof.
  cbv zeta. intros Hv HT. rewrite visit_atom_eq, Hv. cbv zeta.
  unfold deficits, charge_calls; simpl.
  rewrite bool_decide_eq_true_2 by lia. simpl.
  replace (- (V - TotalValence (atom_at m idx)))
    with (TotalValence (atom_at m idx) - V) by lia.
  split_and!; [done..| |].
  - intros Hidx. unfold mol_of; simpl.
    by rewrite charge_at_recompute, charge_at_set_charge.
  - intros j Hj. unfold mol_of; simpl.
    by rewrite charge_at_recompute, charge_at_set_charge_ne.
Qed.

(** ** One turn of the neighbour loop *)

(** C1. In the loop over the neighbours of atom [idx], when the deficits of
    the neighbour [na] share the least value 1 with those of [idx], the bond
    between the two is set to double; when the least shared value is 2 it is
    set to triple. In both cases the cache is then recomputed in the
    permissive form and the loop ends: whatever neighbours are left in [rest]
    are not looked at. No formal charge changes. *)
Theorem shared_deficit_upgrades_bond idx electrons len i na rest m valences common :
  na ∈ neighbors_of m idx →
  valence_table (AtomicNum (atom_at m na)) = Some valences →
  common_electrons (list_to_set electrons) (deficits m na valences) = Some common →
  common = 1 ∨ common = 2 →
  let t := if decide (common = 1) then DOUBLE else TRIPLE in
  let x := scan_neighbors idx electrons len i (na :: rest) m in
  ∃ b bd,
    bond_between m idx na = Some b ∧
    bonds m !! b = Some bd ∧ joins idx na bd = true ∧
    res x = Ok tt ∧
    mol_of x = recompute calc_valence (set_bond_type b t m) ∧
    log_of x = [EvGetTotalValence na;
                EvGetValenceList (AtomicNum (atom_at m na));
                EvGetBondBetweenAtoms idx na;
                EvSetBondType b t;
                EvUpdatePropertyCache false] ∧
    bond_type_at (mol_of x) b = Some t ∧
    charges (mol_of x) = charges m.
Proof.
  intros Hna Hv Hc H12. cbv zeta.
  destruct (neighbor_has_bond _ _ _ Hna) as (b & bd & Hb & Hbd & Hj).
  exists b, bd. rewrite scan_neighbors_cons, Hv, Hc.
  assert (bond_type_at (set_bond_type b (if decide (common = 1) then DOUBLE else TRIPLE) m) b
          = Some (if decide (common = 1) then DOUBLE else TRIPLE)) as Hty.
  { apply bond_type_at_set_bond_type. eauto. }
  destruct H12 as [-> | ->]; simpl in *; unfold upgrade_outcome; rewrite Hb;
    unfold mol_of; simpl; by rewrite charges_recompute.
Qed.

(** C3. In the loop over the neighbours of atom [idx], take a neighbour
    [na] whose deficits share no value with those of [idx]. If [na] is the
    last neighbour, the formal charge of [idx] is set to the negation of its
    first deficit, the cache is recomputed in the permissive form, and no
    bond and no other charge changes. If [na] is not the last neighbour, nothing is done for it
    and the loop goes on with the next one. *)
Theorem empty_intersection_fallback idx electrons e0 len i na rest m valences :
  head electrons = Some e0 →
  valence_table (AtomicNum (atom_at m na)) = Some valences →
  common_electrons (list_to_set electrons) (deficits m na valences) = None →
  (let x := scan_neighbors idx electrons len len [na] m in
   res x = Ok tt ∧
   mol_of x = recompute calc_valence (set_charge idx (- e0) m) ∧
   log_of x = [EvGetTotalValence na;
               EvGetValenceList (AtomicNum (atom_at m na));
               EvSetFormalCharge idx (- e0);
               EvUpdatePropertyCache false] ∧
   bonds (mol_of x) = bonds m ∧
   ((idx < length (atoms m))%nat → charge_at (mol_of x) idx = Some (- e0)) ∧
   (∀ j, j ≠ idx → charge_at (mol_of x) j = charge_at m j)) ∧
  (i ≠ len →
   scan_neighbors idx electrons len i (na :: rest) m =
   prepend [EvGetTotalValence na; EvGetValenceList (AtomicNum (atom_at m na))]
     (scan_neighbors idx electrons len (S i) rest m)).
Proof.
  intros He0 Hv Hc. destruct electrons as [|e electrons]; [done|].
  injection He0 as ->. split.
  - cbv zeta. rewrite scan_neighbors_cons, Hv, Hc.
    rewrite decide_True by done. simpl.
    split_and!; [done..| |].
    + intros Hidx. unfold mol_of; simpl.
      by rewrite charge_at_recompute, charge_at_set_charge.
    + intros j Hj. unfold mol_of; simpl.
      by rewrite charge_at_recompute, charge_at_set_charge_ne.
  - intros Hne. rewrite scan_neighbors_cons, Hv, Hc.
    by rewrite decide_False.
Qed.

Lemma common_electrons_least electrons na_electrons c :
  common_electrons (list_to_set electrons) na_electrons = Some c ↔
  c ∈ electrons ∧ c ∈ na_electrons ∧
  ∀ x, x ∈ electrons → x ∈ na_electrons → c ≤ x.
Proof.
  split; [apply common_electrons_Some|].
  intros (H1 & H2 & Hle).
  destruct (common_electrons _ _) as [c'|] eqn:Hc.
  - apply common_electrons_Some in Hc as (H1' & H2' & Hle').
    f_equal. specialize (Hle c' H1' H2'). specialize (Hle' c H1 H2). lia.
  - by destruct (common_electrons_None _ _ c Hc).
Qed.

(** C10. The shared value of an atom and a neighbour is the least value
    found in both lists of deficits. When that value is none of 0, 1 and 2,
    the turn for this neighbour looks up the bond, recomputes the cache in
    the permissive form and ends the loop: no bond type and no formal charge
    changes, and the neighbours left in [rest] are not looked at. *)
Theorem other_shared_deficit_noop :
  (∀ electrons na_electrons c,
     common_electrons (list_to_set electrons) na_electrons = Some c ↔
     c ∈ electrons ∧ c ∈ na_electrons ∧
     ∀ x, x ∈ electrons → x ∈ na_electrons → c ≤ x) ∧
  (∀ idx electrons len i na rest m valences common,
     valence_table (AtomicNum (atom_at m na)) = Some valences →
     common_electrons (list_to_set electrons) (deficits m na valences) = Some common →
     common ≠ 0 → common ≠ 1 → common ≠ 2 →
     let x := scan_neighbors idx electrons len i (na :: rest) m in
     res x = Ok tt ∧
     mol_of x = recompute calc_valence m ∧
     log_of x = [EvGetTotalValence na;
                 EvGetValenceList (AtomicNum (atom_at m na));
                 EvGetBondBetweenAtoms idx na;
                 EvUpdatePropertyCache false] ∧
     bond_types (mol_of x) = bond_types m ∧
     charges (mol_of x) = charges m).
Proof.
  split; [apply common_electrons_least|].
  intros idx electrons len i na rest m valences common Hv Hc H0 H1 H2.
  cbv zeta. rewrite scan_neighbors_cons, Hv, Hc.
  destruct common as [|p|p]; [done|..];
    rewrite !decide_False by done;
    unfold mol_of; simpl; by rewrite charges_recompute.
Qed.

(** ** One corrective action per visit *)

Lemma mutation_count_app t1 t2 :
  mutation_count (t1 ++ t2) = (mutation_count t1 + mutation_count t2)%nat.
Proof. unfold mutation_count. by rewrite filter_app, length_app. Qed.

Lemma scan_neighbors_one_action idx electrons len rest :
  ∀ i m,
    (i + length rest = S len)%nat →
    let x := scan_neighbors idx electrons len i rest m in
    (mutation_count (log_of x) ≤ 1)%nat ∧ Forall (acts_on m idx) (log_of x).
Proof.
  induction rest as [|na rest IH]; intros i m Hpos; cbv zeta.
  { rewrite scan_neighbors_nil. split; [unfold mutation_count; simpl; lia|constructor]. }
  simpl in Hpos. rewrite scan_neighbors_cons.
  assert (Forall (acts_on m idx) (reads m na)) as Hreads.
  { by repeat constructor. }
  assert (∀ t, let x := upgrade_outcome idx na t m in
               (mutation_count (log_of x) ≤ 1)%nat ∧
               Forall (acts_on m idx) (log_of x)) as Hup.
  { intros t. unfold upgrade_outcome.
    destruct (bond_between m idx na) as [b|] eqn:Hb; simpl.
    - split; [unfold mutation_count; simpl; lia|].
      apply find_bond_Some in Hb as (bd & _ & Hbd & Hj).
      rewrite Nat.sub_0_r in Hbd. repeat constructor.
      exists bd. split; [done|]. by eapply joins_other_end.
    - split; [unfold mutation_count; simpl; lia|by repeat constructor]. }
  assert (∀ j, j = S i →
               let x := prepend (reads m na) (scan_neighbors idx electrons len j rest m) in
               (mutation_count (log_of x) ≤ 1)%nat ∧
               Forall (acts_on m idx) (log_of x)) as Hskip.
  { intros j ->. destruct (IH (S i) m) as [Hn Hf]; [lia|].
    cbv zeta. rewrite log_of_prepend, mutation_count_app.
    split; [done|by apply Forall_app]. }
  destruct (valence_table _) as [valences|].
  2: { split; [unfold mutation_count; simpl; lia|done]. }
  destruct (common_electrons _ _) as [common|].
  - assert (let x := if decide (common = 1) then upgrade_outcome idx na DOUBLE m
                     else if decide (common = 2) then upgrade_outcome idx na TRIPLE m
                     else (Ok tt, recompute calc_valence m,
                           reads m na ++ [EvGetBondBetweenAtoms idx na;
                                          EvUpdatePropertyCache false]) in
            (mutation_count (log_of x) ≤ 1)%nat ∧
            Forall (acts_on m idx) (log_of x)) as Hbranch.
    { repeat case_decide; [apply Hup..|].
      split; [unfold mutation_count; simpl; lia|by repeat constructor]. }
    destruct common; [by apply Hskip|done..].
  - case_decide as Hlast; [|by apply Hskip].
    destruct electrons as [|e0 ?].
    { split; [unfold mutation_count; simpl; lia|done]. }
    destruct rest as [|? ?]; [|simpl in Hpos; lia].
    rewrite scan_neighbors_nil.
    split; [unfold mutation_count; simpl; lia|by repeat constructor].
Qed.

Lemma action_last_quiet idx log :
  mutation_count log = 0%nat → action_last idx log.
Proof. intros H. exists log, []. rewrite app_nil_r. split_and!; [done..|by left]. Qed.

Lemma action_last_prepend idx t log :
  mutation_count t = 0%nat → action_last idx log → action_last idx (t ++ log).
Proof.
  intros Ht (pre & act & -> & Hpre & Hact). exists (t ++ pre), act.
  rewrite mutation_count_app, Ht, Hpre. split_and!; [by rewrite (assoc_L (++))|done..].
Qed.

Lemma scan_neighbors_action_last idx electrons len rest :
  ∀ i m,
    (i + length rest = S len)%nat →
    action_last idx (log_of (scan_neighbors idx electrons len i rest m)).
Proof.
  induction rest as [|na rest IH]; intros i m Hpos.
  { rewrite scan_neighbors_nil. by apply action_last_quiet. }
  simpl in Hpos. rewrite scan_neighbors_cons.
  assert (∀ t, action_last idx (log_of (upgrade_outcome idx na t m))) as Hup.
  { intros t. unfold upgrade_outcome.
    destruct (bond_between m idx na) as [b|]; [|by apply action_last_quiet].
    exists (reads m na ++ [EvGetBondBetweenAtoms idx na]),
           [EvSetBondType b t; EvUpdatePropertyCache false].
    split_and!; [done..|]. right; right. eauto. }
  assert (action_last idx (log_of
            (prepend (reads m na) (scan_neighbors idx electrons len (S i) rest m))))
    as Hskip.
  { rewrite log_of_prepend. apply action_last_prepend; [done|]. apply IH. lia. }
  destruct (valence_table _) as [valences|]; [|by apply action_last_quiet].
  destruct (common_electrons _ _) as [common|].
  - assert (action_last idx (log_of
              (if decide (common = 1) then upgrade_outcome idx na DOUBLE m
               else if decide (common = 2) then upgrade_outcome idx na TRIPLE m
               else (Ok tt, recompute calc_valence m,
                     reads m na ++ [EvGetBondBetweenAtoms idx na;
                                    EvUpdatePropertyCache false]))))
      as Hbranch.
    { repeat case_decide; [apply Hup..|by apply action_last_quiet]. }
    by destruct common.
  - case_decide as Hlast; [|done].
    destruct electrons as [|e0 ?]; [by apply action_last_quiet|].
    destruct rest as [|? ?]; [|simpl in Hpos; lia].
    rewrite scan_neighbors_nil.
    exists (reads m na), (charge_calls idx e0).
    split_and!; [done..|]. right; left. by eexists.
Qed.

(** C6. The visit of an atom calls a mutator at most once: it sets one
    formal charge or the type of one bond, never both. A charge it sets is
    the charge of the visited atom, and a bond it retypes ends in the visited
    atom. The mutation, if there is one, comes after all the reads of the
    visit, and only the permissive recompute follows it: the visit is over
    once it has acted. *)
Theorem one_action_per_visit idx m :
  let x := visit_atom idx m in
  (mutation_count (log_of x) ≤ 1)%nat ∧
  (∀ e, e ∈ log_of x → is_mutation e = true →
        (∃ charge, e = EvSetFormalCharge idx charge) ∨
        (∃ b t bd, e = EvSetBondType b t ∧ bonds m !! b = Some bd ∧
                   is_Some (other_end idx bd))) ∧
  ∃ pre act,
    log_of x = pre ++ act ∧
    mutation_count pre = 0%nat ∧
    (act = [] ∨
     (∃ charge, act = [EvSetFormalCharge idx charge; EvUpdatePropertyCache false]) ∨
     (∃ b t, act = [EvSetBondType b t; EvUpdatePropertyCache false])).
Proof.
  cbv zeta.
  assert ((mutation_count (log_of (visit_atom idx m)) ≤ 1)%nat ∧
          Forall (acts_on m idx) (log_of (visit_atom idx m))) as [Hn Hf].
  { rewrite visit_atom_eq.
    destruct (valence_table _) as [valences|].
    2: { split; [unfold mutation_count; simpl; lia|by repeat constructor]. }
    cbv zeta. destruct (_ && _).
    - destruct (deficits m idx valences) as [|e0 ?];
        (split; [unfold mutation_count; simpl; lia|by repeat constructor]).
    - destruct (scan_neighbors_one_action idx (deficits m idx valences)
                  (length (neighbors_of m idx)) (neighbors_of m idx) 1%nat m)
        as [Hn Hf]; [lia|].
      rewrite log_of_prepend, mutation_count_app.
      split; [done|]. apply Forall_app. split; [by repeat constructor|done]. }
  split_and!; [done| |].
  - intros e He Hmut.
    rewrite Forall_forall in Hf. specialize (Hf e He).
    destruct e; try done; simpl in Hf.
    + left. subst. eauto.
    + right. destruct Hf as (bd & ? & ?). eauto 10.
  - change (action_last idx (log_of (visit_atom idx m))).
    rewrite visit_atom_eq.
    destruct (valence_table _) as [valences|]; [|by apply action_last_quiet].
    cbv zeta. destruct (_ && _).
    + destruct (deficits m idx valences) as [|e0 ?];
        [by apply action_last_quiet|].
      exists (reads m idx), (charge_calls idx e0).
      split_and!; [done..|]. right; left. by eexists.
    + rewrite log_of_prepend. apply action_last_prepend; [done|].
      apply scan_neighbors_action_last. lia.
Qed.

(** ** Exceptions and the sanitizer *)

Section NonEmptyValenceLists.

(** The periodic table lists at least one valence for every element. *)
Hypothesis valence_lists_nonempty :
  ∀ z valences, valence_table z = Some valences → valences ≠ [].

Lemma scan_neighbors_raises idx electrons len rest :
  electrons ≠ [] →
  ∀ i m,
    (∀ na, na ∈ rest → is_Some (find_bond idx na 0 (bonds m))) →
    only_lookup_failure (res (scan_neighbors idx electrons len i rest m)).
Proof.
  intros Hel. induction rest as [|na rest IH]; intros i m Hb; [done|].
  rewrite scan_neighbors_cons.
  assert (∀ m', bonds m' = bonds m →
    only_lookup_failure (res (scan_neighbors idx electrons len (S i) rest m')))
    as Hrest.
  { intros m' Hm'. apply IH. intros na' Hna'. rewrite Hm'.
    apply Hb. by right. }
  destruct (valence_table _) as [valences|] eqn:Hv; [|by eexists].
  destruct (common_electrons _ _) as [common|].
  - assert (∀ t, only_lookup_failure (res (upgrade_outcome idx na t m))) as Hup.
    { intros t. unfold upgrade_outcome, bond_between.
      destruct (Hb na) as [b ->]; [by left|done]. }
    destruct common; [by apply Hrest| |]; repeat case_decide; done.
  - case_decide.
    + destruct electrons as [|e0 ?]; [done|]. by apply Hrest.
    + by apply Hrest.
Qed.

Lemma visit_atom_raises idx m : only_lookup_failure (res (visit_atom idx m)).
Proof.
  rewrite visit_atom_eq.
  destruct (valence_table _) as [valences|] eqn:Hv; [|by eexists].
  cbv zeta. assert (deficits m idx valences ≠ []) as Hel.
  { unfold deficits. intros Hnil%fmap_nil_inv. by eapply valence_lists_nonempty. }
  destruct (_ && _).
  - by destruct (deficits m idx valences).
  - rewrite res_prepend. apply scan_neighbors_raises; [done|].
    intros na (b & bd & Hb & _)%neighbor_has_bond. by exists b.
Qed.

Lemma for_atoms_raises idxs : ∀ m, only_lookup_failure (res (for_atoms idxs m)).
Proof.
  induction idxs as [|idx idxs IH]; intros m; [done|].
  rewrite for_atoms_cons.
  pose proof (visit_atom_raises idx m) as Hv.
  destruct (visit_atom idx m) as [[[[]|e] m1] t1]; [|done].
  rewrite res_prepend. apply IH.
Qed.

Lemma sanitize_count_pass t :
  forallb pass_event t = true → sanitize_count t = 0%nat.
Proof.
  unfold sanitize_count. induction t as [|e t IH]; [done|].
  simpl. intros [He Ht]%andb_true_iff.
  rewrite filter_cons. destruct e; simpl in *; try done; by apply IH.
Qed.

Lemma sanitize_count_app t1 t2 :
  sanitize_count (t1 ++ t2) = (sanitize_count t1 + sanitize_count t2)%nat.
Proof. unfold sanitize_count. by rewrite filter_app, length_app. Qed.

Lemma pass_event_permissive t strict :
  forallb pass_event t = true → EvUpdatePropertyCache strict ∈ t → strict = false.
Proof.
  rewrite forallb_forall. intros Ht Hin%list_elem_of_In.
  specialize (Ht _ Hin). simpl in Ht. by destruct strict.
Qed.

(** C7. The loop over the atoms never calls the sanitizer, and every
    recompute of the whole call is the permissive one. When the loop has
    visited every atom, the sanitizer is called, once, as the last call: the
    routine returns normally with the sanitized molecule when the sanitizer
    accepts, and raises the failure of the sanitizer otherwise. When the
    loop raises, the exception is the lookup failure of an unknown atomic
    number; it goes to the caller as it is and the sanitizer is not called.
    No other exception leaves the routine. *)
Theorem sanitize_once_at_end m :
  let p := repair_pass m in
  let x := update_bonds_and_charges m in
  sanitize_count (log_of p) = 0%nat ∧
  (∀ strict, EvUpdatePropertyCache strict ∈ log_of x → strict = false) ∧
  match res p with
  | Ok _ =>
      log_of x = log_of p ++ [EvSanitizeMol] ∧
      sanitize_count (log_of x) = 1%nat ∧
      match sanitize (mol_of p) with
      | Some m' => res x = Ok tt ∧ mol_of x = m'
      | None => res x = Raise SanitizeFailure ∧ mol_of x = mol_of p
      end
  | Raise e =>
      x = p ∧ ∃ z, e = LookupFailure z ∧ valence_table z = None
  end.
Proof.
  cbv zeta. rewrite update_bonds_and_charges_eq.
  destruct (repair_pass_well_logged m) as (_ & Hpass & _).
  pose proof (for_atoms_raises (seq 0 (length (atoms m))) m) as Hraise.
  rewrite <- repair_pass_eq in Hraise.
  destruct (repair_pass m) as [[[[]|e] m1] t1]; rewrite ?SanitizeMol_eq;
    unfold res, mol_of, log_of in *; simpl in *.
  - assert (sanitize_count (t1 ++ [EvSanitizeMol]) = 1%nat) as Hone.
    { by rewrite sanitize_count_app, sanitize_count_pass. }
    assert (∀ strict, EvUpdatePropertyCache strict ∈ t1 ++ [EvSanitizeMol] →
                      strict = false) as Hperm.
    { intros strict [Hin|Hin]%elem_of_app.
      - by apply (pass_event_permissive t1).
      - by apply list_elem_of_singleton in Hin. }
    split; [by apply sanitize_count_pass|].
    by destruct (sanitize m1).
  - split_and!; [by apply sanitize_count_pass| |done..].
    intros strict. by apply pass_event_permissive.
Qed.

End NonEmptyValenceLists.

Lemma mutations_recomputed_next log : ∀ k e,
  mutations_recomputed log = true →
  log !! k = Some e → is_mutation e = true →
  log !! S k = Some (EvUpdatePropertyCache false).
Proof.
  induction log as [|e' log IH]; intros k e Hrec Hk Hmut; [done|].
  simpl in Hrec. apply andb_true_iff in Hrec as [He' Hrec].
  destruct k as [|k]; simpl in *.
  - injection Hk as ->. rewrite Hmut in He'.
    by destruct log as [|[| | | | | |[]|] ?].
  - by eapply IH.
Qed.

(** C8. In the log of a call of the routine, the call that follows a call
    setting a bond type or a formal charge is always the permissive recompute
    of the property cache, so that no valence is read in between; and the
    logged calls are all that happens to the molecule. *)
Theorem mutations_followed_by_recompute m :
  let x := update_bonds_and_charges m in
  (∀ k e, log_of x !! k = Some e → is_mutation e = true →
          log_of x !! S k = Some (EvUpdatePropertyCache false)) ∧
  mutations_recomputed (log_of x) = true ∧
  mol_of x = replay (log_of x) m.
Proof.
  cbv zeta.
  assert (mutations_recomputed (log_of (update_bonds_and_charges m)) = true ∧
          mol_of (update_bonds_and_charges m)
          = replay (log_of (update_bonds_and_charges m)) m) as [Hrec Hm].
  { rewrite update_bonds_and_charges_eq.
    destruct (repair_pass_well_logged m) as (Hm & _ & Hrec).
    destruct (repair_pass m) as [[[[]|e] m1] t1]; rewrite ?SanitizeMol_eq;
      unfold mol_of, log_of in *; simpl in *; [|done].
    subst m1.
    destruct (sanitize _) as [m'|] eqn:Hs; simpl.
    - split; [by apply mutations_recomputed_app|].
      by rewrite replay_app; simpl; rewrite Hs.
    - split; [by apply mutations_recomputed_app|].
      by rewrite replay_app; simpl; rewrite Hs. }
  split_and!; [|done..].
  intros k e. by apply mutations_recomputed_next.
Qed.

(** ** Bond orders over the pass *)

Lemma apply_event_bond_type e m b t0 :
  pass_event e = true →
  (∃ t1, bond_type_at m b = Some t1 ∧ (t1 = t0 ∨ t1 = DOUBLE ∨ t1 = TRIPLE)) →
  ∃ t1, bond_type_at (apply_event e m) b = Some t1 ∧
        (t1 = t0 ∨ t1 = DOUBLE ∨ t1 = TRIPLE).
Proof.
  intros He (t1 & Hb & Ht1). destruct e as [| | | | |b' t|strict|]; simpl in *;
    try (by exists t1).
  - apply bool_decide_eq_true in He.
    destruct (decide (b' = b)) as [->|Hne].
    + exists t. split; [|tauto].
      apply bond_type_at_set_bond_type. unfold bond_type_at in Hb.
      by destruct (bonds m !! b); eauto.
    + exists t1. by rewrite bond_type_at_set_bond_type_ne.
  - destruct strict; [done|]. by exists t1.
Qed.

Lemma replay_bond_type t b t0 :
  ∀ m,
    forallb pass_event t = true →
    (∃ t1, bond_type_at m b = Some t1 ∧ (t1 = t0 ∨ t1 = DOUBLE ∨ t1 = TRIPLE)) →
    ∃ t1, bond_type_at (replay t m) b = Some t1 ∧
          (t1 = t0 ∨ t1 = DOUBLE ∨ t1 = TRIPLE).
Proof.
  induction t as [|e t IH]; intros m Ht Hm; [done|].
  simpl in Ht. apply andb_true_iff in Ht as [He Ht].
  apply (IH (apply_event e m)); [done|]. by apply apply_event_bond_type.
Qed.

(** C4, as the code has it. A bond that enters the pass as single, aromatic
    or double leaves it with an order that is not lower: after the pass a
    bond has the type it came with, or is double, or is triple. *)
Theorem bond_order_not_lowered m b t0 :
  bond_type_at m b = Some t0 →
  t0 ≠ TRIPLE →
  ∃ t1, bond_type_at (mol_of (repair_pass m)) b = Some t1 ∧
        (t1 = t0 ∨ t1 = DOUBLE ∨ t1 = TRIPLE) ∧
        bond_order_x2 t0 ≤ bond_order_x2 t1.
Proof.
  intros Hb Ht0.
  destruct (repair_pass_well_logged m) as (-> & Hpass & _).
  destruct (replay_bond_type (log_of (repair_pass m)) b t0 m Hpass)
    as (t1 & Hb1 & Ht1); [by eauto|].
  exists t1. split_and!; [done..|].
  destruct Ht1 as [->| [->| ->]]; [lia|by destruct t0..].
Qed.

(** ** A molecule with nothing to repair *)

Lemma settled_deficits m idx :
  settled m → (idx < length (atoms m))%nat →
  ∃ valences, valence_table (AtomicNum (atom_at m idx)) = Some valences ∧
              0 ∈ deficits m idx valences.
Proof.
  intros Hs [a Ha]%lookup_lt_is_Some. destruct (Hs idx a Ha) as (vs & Hv & Hin).
  assert (atom_at m idx = a) as Hat. { unfold atom_at. by rewrite Ha. }
  unfold deficits. rewrite Hat. exists vs. split; [done|].
  apply list_elem_of_fmap. exists (TotalValence a). split; [lia|done].
Qed.

Lemma neighbors_in_range m idx na :
  wf_mol m → na ∈ neighbors_of m idx → (na < length (atoms m))%nat.
Proof.
  unfold wf_mol, neighbors_of. rewrite Forall_forall.
  intros Hwf (bd & Hin & Hoe)%list_elem_of_omap.
  destruct (Hwf bd Hin) as (H1 & H2 & _).
  unfold other_end in Hoe. repeat case_decide; by simplify_eq.
Qed.

Lemma scan_neighbors_settled idx electrons len rest m :
  recompute calc_valence m = m →
  settled m →
  0 ∈ electrons →
  (∀ na, na ∈ rest → (na < length (atoms m))%nat) →
  ∀ i, let x := scan_neighbors idx electrons len i rest m in
       res x = Ok tt ∧ mol_of x = m ∧ mutation_count (log_of x) = 0%nat.
Proof.
  intros Hfresh Hs H0. induction rest as [|na rest IH]; intros Hr i; [done|].
  cbv zeta. rewrite scan_neighbors_cons.
  destruct (settled_deficits m na Hs) as (vs & -> & Hna0); [apply Hr; by left|].
  assert (let x := prepend (reads m na)
                     (scan_neighbors idx electrons len (S i) rest m) in
          res x = Ok tt ∧ mol_of x = m ∧ mutation_count (log_of x) = 0%nat)
    as Hskip.
  { cbv zeta. rewrite res_prepend, mol_of_prepend, log_of_prepend,
      mutation_count_app.
    destruct (IH (λ na' Hin, Hr na' (list_elem_of_further _ _ _ Hin)) (S i))
      as (-> & -> & ->).
    done. }
  destruct (common_electrons _ _) as [common|] eqn:Hc.
  - apply common_electrons_Some in Hc as (_ & _ & Hle).
    specialize (Hle 0 H0 Hna0).
    destruct common as [|p|p]; [done|lia|].
    rewrite !decide_False by done.
    unfold mol_of; simpl. by rewrite Hfresh.
  - by destruct (common_electrons_None _ _ 0 Hc).
Qed.

Lemma visit_atom_settled idx m :
  wf_mol m →
  recompute calc_valence m = m →
  settled m →
  (idx < length (atoms m))%nat →
  let x := visit_atom idx m in
  res x = Ok tt ∧ mol_of x = m ∧ mutation_count (log_of x) = 0%nat.
Proof.
  intros Hwf Hfresh Hs Hidx. cbv zeta. rewrite visit_atom_eq.
  destruct (settled_deficits m idx Hs Hidx) as (vs & -> & H0). cbv zeta.
  assert (bool_decide (length (deficits m idx vs) = 1%nat) &&
          bool_decide (default 0 (head (deficits m idx vs)) < 0) = false) as ->.
  { destruct (deficits m idx vs) as [|e [|? ?]]; [done| |done].
    apply list_elem_of_singleton in H0 as <-. done. }
  rewrite res_prepend, mol_of_prepend, log_of_prepend, mutation_count_app.
  destruct (scan_neighbors_settled idx (deficits m idx vs)
              (length (neighbors_of m idx)) (neighbors_of m idx) m
              Hfresh Hs H0) with (i := 1%nat) as (-> & -> & ->); [|done].
  intros na. by apply neighbors_in_range.
Qed.

Lemma for_atoms_settled idxs m :
  wf_mol m →
  recompute calc_valence m = m →
  settled m →
  (∀ idx, idx ∈ idxs → (idx < length (atoms m))%nat) →
  let x := for_atoms idxs m in
  res x = Ok tt ∧ mol_of x = m ∧ mutation_count (log_of x) = 0%nat.
Proof.
  intros Hwf Hfresh Hs. induction idxs as [|idx idxs IH]; intros Hr; [done|].
  cbv zeta. rewrite for_atoms_cons.
  destruct (visit_atom_settled idx m Hwf Hfresh Hs) as (Hres & Hm & Hn).
  { apply Hr. by left. }
  destruct (visit_atom idx m) as [[r m1] t1].
  unfold res, mol_of, log_of in Hres, Hm, Hn; simpl in *. subst r m1.
  rewrite res_prepend, mol_of_prepend, log_of_prepend, mutation_count_app, Hn.
  apply IH. intros idx' Hin. apply Hr. by right.
Qed.

(** C9. Take a well-formed molecule in which the cached valence of every
    atom is one of the valences of its element, whose property cache is
    current, and which the sanitizer accepts. The routine returns normally
    and calls no mutator: the pass hands the molecule to the sanitizer as it
    came, with every bond type and every formal charge unchanged, and the
    routine ends with what the sanitizer makes of it, which is the molecule
    itself when the sanitizer leaves a sanitized molecule alone. *)
Theorem repaired_molecule_unchanged m :
  wf_mol m →
  settled m →
  recompute calc_valence m = m →
  is_Some (sanitize m) →
  let p := repair_pass m in
  let x := update_bonds_and_charges m in
  res p = Ok tt ∧
  mol_of p = m ∧
  bond_types (mol_of p) = bond_types m ∧
  charges (mol_of p) = charges m ∧
  res x = Ok tt ∧
  mutation_count (log_of x) = 0%nat ∧
  sanitize m = Some (mol_of x) ∧
  (sanitize m = Some m → mol_of x = m).
Proof.
  intros Hwf Hs Hfresh [m' Hsan]. cbv zeta.
  rewrite update_bonds_and_charges_eq, repair_pass_eq.
  destruct (for_atoms_settled (seq 0 (length (atoms m))) m Hwf Hfresh Hs)
    as (Hres & Hm & Hn).
  { intros idx Hin%elem_of_seq. lia. }
  destruct (for_atoms _ m) as [[r m1] t1].
  unfold res, mol_of, log_of in Hres, Hm, Hn; simpl in *. subst r m1.
  rewrite SanitizeMol_eq, Hsan.
  unfold res, mol_of, log_of; simpl.
  split_and!; try done.
  - by rewrite (mutation_count_app t1 [_]), Hn.
  - congruence.
Qed.

(** ** The pass keeps the topology *)

Lemma fmap_alter_same {A B} (f : A → B) (g : A → A) i (l : list A) :
  (∀ x, f (g x) = f x) → f <$> alter g i l = f <$> l.
Proof.
  intros Hfg. apply list_eq; intros k. rewrite !list_lookup_fmap.
  destruct (decide (i = k)) as [->|Hne].
  - rewrite list_lookup_alter_eq. destruct (l !! k); simpl; by rewrite ?Hfg.
  - by rewrite list_lookup_alter_ne.
Qed.

Lemma fmap_imap_same {A B} (f : A → B) (g : nat → A → A) (l : list A) :
  (∀ i x, f (g i x) = f x) → f <$> imap g l = f <$> l.
Proof.
  intros Hfg. apply list_eq; intros k.
  rewrite !list_lookup_fmap, list_lookup_imap.
  destruct (l !! k); simpl; by rewrite ?Hfg.
Qed.

Lemma same_topology_refl m : same_topology m m.
Proof. by split. Qed.

Lemma same_topology_recompute m m' :
  same_topology m m' → same_topology m (recompute calc_valence m').
Proof.
  intros [Ha Hb]. split; [|done]. rewrite <- Ha. unfold recompute; simpl.
  by apply fmap_imap_same.
Qed.

Lemma same_topology_set_charge m m' idx c :
  same_topology m m' → same_topology m (set_charge idx c m').
Proof.
  intros [Ha Hb]. split; [|done]. rewrite <- Ha. unfold set_charge; simpl.
  by apply fmap_alter_same.
Qed.

Lemma same_topology_set_bond_type m m' b t :
  same_topology m m' → same_topology m (set_bond_type b t m').
Proof.
  intros [Ha Hb]. split; [done|]. rewrite <- Hb. unfold set_bond_type; simpl.
  by apply fmap_alter_same.
Qed.

Lemma same_topology_replay m log :
  ∀ m', forallb pass_event log = true →
        same_topology m m' → same_topology m (replay log m').
Proof.
  induction log as [|e log IH]; intros m' Hlog Hm'; [done|].
  simpl in Hlog. apply andb_true_iff in Hlog as [He Hlog].
  apply (IH (apply_event e m') Hlog).
  destruct e as [| | | |idx c|b t|strict|]; simpl in *; try done.
  - by apply same_topology_set_charge.
  - by apply same_topology_set_bond_type.
  - destruct strict; [done|]. by apply same_topology_recompute.
Qed.

Lemma same_topology_length m m' :
  same_topology m m' →
  length (atoms m') = length (atoms m) ∧ length (bonds m') = length (bonds m).
Proof.
  intros [Ha Hb]. split.
  - by rewrite <- (length_fmap AtomicNum (atoms m')), Ha, length_fmap.
  - by rewrite <- (length_fmap bond_ends (bonds m')), Hb, length_fmap.
Qed.

Lemma other_end_bond_ends idx b b' :
  bond_ends b = bond_ends b' → other_end idx b = other_end idx b'.
Proof. unfold bond_ends, other_end. by intros [= -> ->]. Qed.

Lemma neighbors_of_same_topology m m' idx :
  same_topology m m' → neighbors_of m' idx = neighbors_of m idx.
Proof.
  intros [_ Hb]. unfold neighbors_of.
  revert Hb. generalize (bonds m) as bs. generalize (bonds m') as bs'.
  induction bs' as [|b' bs' IH]; intros [|b bs] Hb; simpl in *; try done.
  apply (inj2 cons) in Hb as [Hb1 Hb2].
  rewrite (other_end_bond_ends idx b' b Hb1).
  specialize (IH bs Hb2).
  change (list_omap Bond nat (other_end idx) bs')
    with (omap (other_end idx) bs').
  by rewrite IH.
Qed.

Lemma wf_mol_same_topology m m' :
  same_topology m m' → wf_mol m → wf_mol m'.
Proof.
  intros Hst Hwf. destruct (same_topology_length m m' Hst) as [Hlen _].
  destruct Hst as [_ Hb]. unfold wf_mol in *.
  apply Forall_lookup. intros k b' Hk.
  assert (bond_ends <$> bonds m !! k = Some (bond_ends b')) as Hk'.
  { by rewrite <- list_lookup_fmap, <- Hb, list_lookup_fmap, Hk. }
  destruct (bonds m !! k) as [b|] eqn:Hbk; [|done].
  simpl in Hk'. rewrite Forall_lookup in Hwf.
  specialize (Hwf k b Hbk). unfold wf_bond, bond_ends in *.
  injection Hk' as Hb1 Hb2. by rewrite Hlen, <- Hb1, <- Hb2.
Qed.

(** X1. The pass neither adds nor removes an atom or a bond, changes no
    element and re-attaches no bond: the molecule it leaves has the atoms
    and the bond ends it came with, hence the same neighbours for every
    atom, and it is well formed if the molecule that came in was. This
    holds whether the pass ends normally or raises. *)
Theorem pass_keeps_topology m :
  let m' := mol_of (repair_pass m) in
  same_topology m m' ∧
  length (atoms m') = length (atoms m) ∧
  length (bonds m') = length (bonds m) ∧
  (∀ idx, neighbors_of m' idx = neighbors_of m idx) ∧
  (wf_mol m → wf_mol m').
Proof.
  cbv zeta.
  destruct (repair_pass_well_logged m) as (Hm & Hpass & _).
  assert (same_topology m (mol_of (repair_pass m))) as Hst.
  { rewrite Hm. apply same_topology_replay; [done|apply same_topology_refl]. }
  destruct (same_topology_length _ _ Hst) as [Hla Hlb].
  split_and!; [done..| |].
  - intros idx. by apply neighbors_of_same_topology.
  - by apply wf_mol_same_topology.
Qed.

(** ** What one visit may touch *)

Lemma visit_atom_acts idx m :
  (mutation_count (log_of (visit_atom idx m)) ≤ 1)%nat ∧
  Forall (acts_on m idx) (log_of (visit_atom idx m)).
Proof.
  rewrite visit_atom_eq.
  destruct (valence_table _) as [valences|].
  2: { split; [unfold mutation_count; simpl; lia|by repeat constructor]. }
  cbv zeta. destruct (_ && _).
  - destruct (deficits m idx valences) as [|e0 ?];
      (split; [unfold mutation_count; simpl; lia|by repeat constructor]).
  - destruct (scan_neighbors_one_action idx (deficits m idx valences)
                (length (neighbors_of m idx)) (neighbors_of m idx) 1%nat m)
      as [Hn Hf]; [lia|].
    rewrite log_of_prepend, mutation_count_app.
    split; [done|]. apply Forall_app. split; [by repeat constructor|done].
Qed.

Lemma acts_on_same_bonds m m' idx e :
  bonds m' = bonds m → acts_on m idx e → acts_on m' idx e.
Proof. intros Hb. destruct e; simpl; by rewrite ?Hb. Qed.

Lemma replay_cons e log m : replay (e :: log) m = replay log (apply_event e m).
Proof. reflexivity. Qed.

(** Replaying calls that act on atom [idx] leaves the charge of any other
    atom and the type of any bond that does not end in [idx]. *)
Lemma replay_frame idx log :
  ∀ m,
    forallb pass_event log = true →
    Forall (acts_on m idx) log →
    (∀ j, j ≠ idx → charge_at (replay log m) j = charge_at m j) ∧
    (∀ b bd, bonds m !! b = Some bd → other_end idx bd = None →
             bond_type_at (replay log m) b = Some (GetBondType bd)).
Proof.
  induction log as [|e log IH]; intros m Hpass Hacts.
  { split; [done|]. intros b bd Hb _. unfold bond_type_at; simpl. by rewrite Hb. }
  simpl in Hpass. apply andb_true_iff in Hpass as [He Hpass].
  apply Forall_cons in Hacts as [Hact Hacts].
  assert (bond_ends <$> bonds (apply_event e m) = bond_ends <$> bonds m) as Hends.
  { destruct e as [| | | |i c|b t|strict|]; simpl in *; try done.
    - by apply fmap_alter_same.
    - by destruct strict. }
  assert (Forall (acts_on (apply_event e m) idx) log) as Hacts'.
  { eapply Forall_impl; [exact Hacts|]. intros e' He'.
    destruct e' as [| | | | |b' t'| |]; simpl in *; try done.
    destruct He' as (bd & Hbd & Hoe).
    assert (bond_ends <$> bonds (apply_event e m) !! b' = Some (bond_ends bd))
      as Hb'.
    { by rewrite <- list_lookup_fmap, Hends, list_lookup_fmap, Hbd. }
    destruct (bonds (apply_event e m) !! b') as [bd'|]; [|done].
    exists bd'. split; [done|]. simpl in Hb'. injection Hb' as Hb1 Hb2.
    by rewrite (other_end_bond_ends idx bd' bd) by (unfold bond_ends; congruence). }
  destruct (IH (apply_event e m) Hpass Hacts') as [IHc IHb].
  rewrite replay_cons. split.
  - intros j Hj. rewrite (IHc j Hj).
    destruct e as [| | | |i c|b t|strict|]; simpl in *; try done.
    + subst i. by apply charge_at_set_charge_ne.
    + destruct strict; [done|]. apply charge_at_recompute.
  - intros b bd Hbd Hoe.
    destruct e as [| | | |i c|b' t|strict|]; simpl in *;
      try (by apply IHb).
    + destruct Hact as (bd' & Hbd' & Hsome).
      assert (b' ≠ b) as Hne.
      { intros ->. rewrite Hbd in Hbd'. injection Hbd' as <-.
        rewrite Hoe in Hsome. by destruct Hsome. }
      assert (bonds (set_bond_type b' t m) !! b = Some bd) as Hbd2.
      { unfold set_bond_type; simpl. by rewrite list_lookup_alter_ne. }
      by apply IHb.
    + destruct strict; [done|]. by apply IHb.
Qed.

(** X2. The visit of an atom changes the formal charge of no other atom
    and the type of no bond that does not end in the visited atom, whatever
    the outcome of the visit. *)
Theorem visit_touches_own_atom_only idx m :
  let x := visit_atom idx m in
  (∀ j, j ≠ idx → charge_at (mol_of x) j = charge_at m j) ∧
  (∀ b bd, bonds m !! b = Some bd → other_end idx bd = None →
           bond_type_at (mol_of x) b = Some (GetBondType bd)).
Proof.
  cbv zeta.
  destruct (visit_atom_well_logged idx m) as (-> & Hpass & _).
  destruct (visit_atom_acts idx m) as [_ Hacts].
  by apply replay_frame.
Qed.

(** ** A visit that raises *)

Lemma scan_neighbors_raise_clean idx electrons len rest :
  ∀ i m e,
    (i + length rest = S len)%nat →
    res (scan_neighbors idx electrons len i rest m) = Raise e →
    mol_of (scan_neighbors idx electrons len i rest m) = m ∧
    mutation_count (log_of (scan_neighbors idx electrons len i rest m)) = 0%nat.
Proof.
  induction rest as [|na rest IH]; intros i m e Hpos; [done|].
  simpl in Hpos. rewrite scan_neighbors_cons.
  assert (∀ t, res (upgrade_outcome idx na t m) = Raise e →
               mol_of (upgrade_outcome idx na t m) = m ∧
               mutation_count (log_of (upgrade_outcome idx na t m)) = 0%nat)
    as Hup.
  { intros t. unfold upgrade_outcome. by destruct (bond_between m idx na). }
  assert (let x := prepend (reads m na)
                     (scan_neighbors idx electrons len (S i) rest m) in
          res x = Raise e →
          mol_of x = m ∧ mutation_count (log_of x) = 0%nat) as Hskip.
  { cbv zeta. rewrite res_prepend, mol_of_prepend, log_of_prepend,
      mutation_count_app.
    intros Hr. destruct (IH (S i) m e) as [-> ->]; [lia|done..]. }
  destruct (valence_table _) as [valences|]; [|done].
  destruct (common_electrons _ _) as [common|].
  - destruct common; [done|..]; repeat case_decide; by auto.
  - case_decide; [|done].
    destruct electrons as [|e0 ?]; [done|].
    destruct rest as [|? ?]; [done|simpl in Hpos; lia].
Qed.

(** X3. A visit that raises has changed nothing: when the visit of an atom
    ends in an exception, the molecule is as it was before the visit and no
    mutator was called. *)
Theorem raising_visit_changes_nothing idx m e :
  res (visit_atom idx m) = Raise e →
  mol_of (visit_atom idx m) = m ∧
  mutation_count (log_of (visit_atom idx m)) = 0%nat.
Proof.
  rewrite visit_atom_eq.
  destruct (valence_table _) as [valences|]; [|done].
  cbv zeta. destruct (_ && _).
  - by destruct (deficits m idx valences).
  - rewrite res_prepend, mol_of_prepend, log_of_prepend, mutation_count_app.
    intros Hr.
    destruct (scan_neighbors_raise_clean idx (deficits m idx valences)
                (length (neighbors_of m idx)) (neighbors_of m idx) 1%nat m e)
      as [-> ->]; [lia|done..].
Qed.

(** ** Counting over the pass *)

Lemma charge_sets_app idx t1 t2 :
  charge_sets idx (t1 ++ t2) = (charge_sets idx t1 + charge_sets idx t2)%nat.
Proof. unfold charge_sets. by rewrite filter_app, length_app. Qed.

Lemma charge_sets_le_mutations idx log :
  (charge_sets idx log ≤ mutation_count log)%nat.
Proof.
  unfold charge_sets, mutation_count.
  induction log as [|e log IH]; [done|].
  rewrite !filter_cons.
  destruct e; simpl; repeat case_decide; simpl; try done; lia.
Qed.

Lemma charge_sets_other idx j m log :
  j ≠ idx → Forall (acts_on m j) log → charge_sets idx log = 0%nat.
Proof.
  intros Hne. unfold charge_sets. induction 1 as [|e log He _ IH]; [done|].
  rewrite filter_cons. destruct e; simpl in *; try done.
  subst. by rewrite bool_decide_eq_false_2.
Qed.

Lemma for_atoms_counts idxs idx :
  ∀ m,
    NoDup idxs →
    (mutation_count (log_of (for_atoms idxs m)) ≤ length idxs)%nat ∧
    (charge_sets idx (log_of (for_atoms idxs m)) ≤ 1)%nat ∧
    (idx ∉ idxs → charge_sets idx (log_of (for_atoms idxs m)) = 0%nat).
Proof.
  induction idxs as [|j idxs IH]; intros m Hnd.
  { rewrite for_atoms_nil. unfold mutation_count, charge_sets; simpl. split_and!; [lia..|done]. }
  apply NoDup_cons in Hnd as [Hj Hnd].
  rewrite for_atoms_cons.
  destruct (visit_atom_acts j m) as [Hn Hacts].
  pose proof (charge_sets_le_mutations idx (log_of (visit_atom j m))) as Hle.
  destruct (visit_atom j m) as [[[[]|e] m1] t1];
    unfold log_of in Hn, Hacts, Hle; simpl in Hn, Hacts, Hle.
  - destruct (IH m1 Hnd) as (IHn & IHc & IH0).
    rewrite log_of_prepend, mutation_count_app, charge_sets_app. split_and!.
    + simpl. lia.
    + destruct (decide (j = idx)) as [->|Hne].
      * rewrite (IH0 Hj). lia.
      * rewrite (charge_sets_other idx j m t1 Hne Hacts). lia.
    + intros Hnotin. apply not_elem_of_cons in Hnotin as [Hne Hnotin].
      rewrite (charge_sets_other idx j m t1) by done. by rewrite IH0.
  - unfold log_of; simpl. split_and!; [lia..|].
    intros Hnotin. apply not_elem_of_cons in Hnotin as [Hne Hnotin].
    by rewrite (charge_sets_other idx j m t1).
Qed.

(** X4. Over a whole pass the mutators are called at most as often as the
    molecule has atoms, and the formal charge of any one atom is set at most
    once. *)
Theorem pass_acts_once_per_atom m :
  (mutation_count (log_of (repair_pass m)) ≤ length (atoms m))%nat ∧
  ∀ idx, (charge_sets idx (log_of (repair_pass m)) ≤ 1)%nat.
Proof.
  rewrite repair_pass_eq. split.
  - destruct (for_atoms_counts (seq 0 (length (atoms m))) 0%nat m) as [Hn _];
      [apply NoDup_seq|].
    by rewrite length_seq in Hn.
  - intros idx.
    by destruct (for_atoms_counts (seq 0 (length (atoms m))) idx m)
      as (_ & Hc & _); [apply NoDup_seq|].
Qed.

(** ** The loop over the neighbours as a whole *)

Lemma reads_all_cons m na nas :
  reads_all m (na :: nas) = reads m na ++ reads_all m nas.
Proof. reflexivity. Qed.

(** Neighbours that are passed over, none of them the last, only add their
    reads to the log. *)
Lemma scan_neighbors_skip_prefix idx electrons len rest m pre :
  ∀ i,
    Forall (skipped m electrons) pre →
    (i + length pre ≤ len)%nat →
    scan_neighbors idx electrons len i (pre ++ rest) m =
    prepend (reads_all m pre)
      (scan_neighbors idx electrons len (i + length pre) rest m).
Proof.
  induction pre as [|na pre IH]; intros i Hsk Hlen.
  { simpl. by rewrite Nat.add_0_r, prepend_nil. }
  apply Forall_cons in Hsk as [(valences & Hv & Hc) Hsk]. simpl in Hlen.
  rewrite <- app_comm_cons, scan_neighbors_cons, Hv.
  assert (scan_neighbors idx electrons len (S i) (pre ++ rest) m =
          prepend (reads_all m pre)
            (scan_neighbors idx electrons len (i + length (na :: pre)) rest m))
    as Hrest.
  { rewrite IH by (done || lia). simpl. by rewrite Nat.add_succ_r. }
  destruct Hc as [-> | ->].
  - by rewrite Hrest, prepend_prepend.
  - rewrite decide_False by lia. by rewrite Hrest, prepend_prepend.
Qed.

(** X5. An atom without neighbours that is not in the single-deficit
    negative case is left alone, whatever its deficits: the visit reads its
    valence, asks for its neighbours, and changes nothing. *)
Theorem isolated_atom_untouched idx m valences :
  valence_table (AtomicNum (atom_at m idx)) = Some valences →
  single_negative (deficits m idx valences) = false →
  neighbors_of m idx = [] →
  visit_atom idx m =
  (Ok tt, m, [EvGetTotalValence idx;
              EvGetValenceList (AtomicNum (atom_at m idx));
              EvGetNeighbors idx]).
Proof.
  intros Hv Hsn Hnb. rewrite visit_atom_eq, Hv. cbv zeta.
  fold (single_negative (deficits m idx valences)). by rewrite Hsn, Hnb.
Qed.

(** X6. The bond that is raised is the one to the first neighbour, in the
    order of the neighbours, whose deficits share a least value other than 0
    with those of the atom: when the neighbours before [na] share 0 or
    nothing and [na] shares 1 (or 2), the visit sets the bond to [na] to
    double (or triple), recomputes, and does not look at the neighbours
    after [na]. *)
Theorem first_compatible_neighbor idx m valences pre na rest na_valences common :
  let electrons := deficits m idx valences in
  let t := if decide (common = 1) then DOUBLE else TRIPLE in
  valence_table (AtomicNum (atom_at m idx)) = Some valences →
  single_negative electrons = false →
  neighbors_of m idx = pre ++ na :: rest →
  Forall (skipped m electrons) pre →
  valence_table (AtomicNum (atom_at m na)) = Some na_valences →
  common_electrons (list_to_set electrons) (deficits m na na_valences)
    = Some common →
  common = 1 ∨ common = 2 →
  ∃ b,
    bond_between m idx na = Some b ∧
    visit_atom idx m =
    (Ok tt, recompute calc_valence (set_bond_type b t m),
     reads m idx ++ [EvGetNeighbors idx] ++ reads_all m pre ++ reads m na ++
     [EvGetBondBetweenAtoms idx na; EvSetBondType b t;
      EvUpdatePropertyCache false]).
Proof.
  cbv zeta. intros Hv Hsn Hnb Hsk Hnv Hc H12.
  assert (na ∈ neighbors_of m idx) as Hin.
  { rewrite Hnb. apply elem_of_app. right. by left. }
  destruct (neighbor_has_bond _ _ _ Hin) as (b & _ & Hb & _).
  exists b. split; [done|].
  rewrite visit_atom_eq, Hv. cbv zeta.
  fold (single_negative (deficits m idx valences)). rewrite Hsn, Hnb.
  rewrite scan_neighbors_skip_prefix
    by (done || rewrite length_app; simpl; lia).
  rewrite scan_neighbors_cons, Hnv, Hc, prepend_prepend.
  destruct H12 as [-> | ->]; simpl; unfold upgrade_outcome; rewrite Hb;
    unfold prepend; simpl; by rewrite <- ?(assoc_L (++)).
Qed.

(** X7. Whether the fallback charge is set depends on the last neighbour
    alone. Let all neighbours but the last share 0 or nothing with the atom.
    If the last neighbour shares nothing, the atom gets the charge
    [- electrons[0]], even when an earlier neighbour shares 0. If the last
    neighbour shares the least value 0, nothing is changed, even when no
    other neighbour shares anything. *)
Theorem fallback_depends_on_last_neighbor idx m valences pre na na_valences e0 :
  let electrons := deficits m idx valences in
  let c := common_electrons (list_to_set electrons) (deficits m na na_valences) in
  let log := reads m idx ++ [EvGetNeighbors idx] ++ reads_all m pre ++ reads m na in
  valence_table (AtomicNum (atom_at m idx)) = Some valences →
  single_negative electrons = false →
  head electrons = Some e0 →
  neighbors_of m idx = pre ++ [na] →
  Forall (skipped m electrons) pre →
  valence_table (AtomicNum (atom_at m na)) = Some na_valences →
  (c = None →
   visit_atom idx m =
   (Ok tt, recompute calc_valence (set_charge idx (- e0) m),
    log ++ [EvSetFormalCharge idx (- e0); EvUpdatePropertyCache false])) ∧
  (c = Some 0 → visit_atom idx m = (Ok tt, m, log)).
Proof.
  cbv zeta. intros Hv Hsn He0 Hnb Hsk Hnv.
  assert (visit_atom idx m =
          prepend (reads m idx ++ [EvGetNeighbors idx] ++ reads_all m pre)
            (scan_neighbors idx (deficits m idx valences)
               (length pre + 1) (length pre + 1) [na] m)) as Hvisit.
  { rewrite visit_atom_eq, Hv. cbv zeta.
    fold (single_negative (deficits m idx valences)). rewrite Hsn, Hnb.
    rewrite scan_neighbors_skip_prefix
      by (done || rewrite length_app; simpl; lia).
    rewrite prepend_prepend, length_app.
    change (length [na]) with 1%nat.
    rewrite <- !(assoc_L (++)). do 2 f_equal; lia. }
  rewrite Hvisit, scan_neighbors_cons, Hnv.
  destruct (deficits m idx valences) as [|e electrons] eqn:Hel; [done|].
  injection He0 as ->.
  split; intros ->.
  - rewrite decide_True by done. rewrite scan_neighbors_nil.
    unfold prepend, charge_calls; simpl. by rewrite <- ?(assoc_L (++)).
  - rewrite scan_neighbors_nil.
    unfold prepend; simpl. by rewrite <- ?(assoc_L (++)), ?app_nil_r.
Qed.

(** ** A molecule of known elements *)

Lemma known_elements_same_topology m m' :
  same_topology m m' → known_elements m → known_elements m'.
Proof.
  intros [Ha _] Hk idx a' Hidx.
  assert (AtomicNum <$> atoms m !! idx = Some (AtomicNum a')) as Hz.
  { by rewrite <- list_lookup_fmap, <- Ha, list_lookup_fmap, Hidx. }
  destruct (atoms m !! idx) as [a|] eqn:Hm; [|done].
  simpl in Hz. injection Hz as <-. by eapply Hk.
Qed.

Lemma known_elements_at m idx :
  known_elements m → (idx < length (atoms m))%nat →
  is_Some (valence_table (AtomicNum (atom_at m idx))).
Proof.
  intros Hk [a Ha]%lookup_lt_is_Some. unfold atom_at. rewrite Ha. by eapply Hk.
Qed.

Section KnownElements.

Hypothesis valence_lists_listed :
  ∀ z valences, valence_table z = Some valences → valences ≠ [].

Lemma scan_neighbors_ok idx electrons len rest :
  electrons ≠ [] →
  ∀ i m,
    known_elements m →
    (∀ na, na ∈ rest → (na < length (atoms m))%nat ∧
                       is_Some (find_bond idx na 0 (bonds m))) →
    res (scan_neighbors idx electrons len i rest m) = Ok tt.
Proof.
  intros Hel. induction rest as [|na rest IH]; intros i m Hk Hr; [done|].
  rewrite scan_neighbors_cons.
  destruct (Hr na) as [Hna [b Hb]]; [by left|].
  destruct (known_elements_at m na Hk Hna) as [valences ->].
  assert (res (prepend (reads m na)
                 (scan_neighbors idx electrons len (S i) rest m)) = Ok tt)
    as Hskip.
  { rewrite res_prepend. apply IH; [done|]. intros na' Hin. apply Hr. by right. }
  destruct (common_electrons _ _) as [common|].
  - assert (∀ t, res (upgrade_outcome idx na t m) = Ok tt) as Hup.
    { intros t. unfold upgrade_outcome, bond_between. by rewrite Hb. }
    destruct common; [done|..]; repeat case_decide; done.
  - case_decide; [|done].
    destruct electrons as [|e0 ?]; [done|].
    rewrite res_prepend. apply IH.
    + eapply known_elements_same_topology; [|exact Hk].
      apply same_topology_recompute, same_topology_set_charge,
        same_topology_refl.
    + intros na' Hin. destruct (Hr na') as [Hlt Hbond]; [by right|].
      split; [|done]. unfold recompute, set_charge; simpl.
      by rewrite length_imap, length_alter.
Qed.

Lemma visit_atom_ok idx m :
  wf_mol m → known_elements m → (idx < length (atoms m))%nat →
  res (visit_atom idx m) = Ok tt.
Proof.
  intros Hwf Hk Hidx. rewrite visit_atom_eq.
  destruct (known_elements_at m idx Hk Hidx) as [valences Hv]. rewrite Hv.
  cbv zeta. assert (deficits m idx valences ≠ []) as Hel.
  { unfold deficits. intros Hnil%fmap_nil_inv. by eapply valence_lists_listed. }
  destruct (_ && _).
  - by destruct (deficits m idx valences).
  - rewrite res_prepend. apply scan_neighbors_ok; [done..|].
    intros na Hna. split; [by eapply neighbors_in_range|].
    destruct (neighbor_has_bond _ _ _ Hna) as (b & _ & Hb & _). by exists b.
Qed.

Lemma for_atoms_ok idxs :
  ∀ m,
    wf_mol m → known_elements m →
    (∀ idx, idx ∈ idxs → (idx < length (atoms m))%nat) →
    res (for_atoms idxs m) = Ok tt.
Proof.
  induction idxs as [|idx idxs IH]; intros m Hwf Hk Hr; [done|].
  rewrite for_atoms_cons.
  pose proof (visit_atom_ok idx m Hwf Hk (Hr idx (list_elem_of_here _ _))) as Hres.
  destruct (visit_atom_well_logged idx m) as (Hm & Hpass & _).
  destruct (visit_atom idx m) as [[r m1] t1].
  unfold res, mol_of, log_of in Hres, Hm, Hpass; simpl in *. subst r.
  assert (same_topology m m1) as Hst.
  { rewrite Hm. apply same_topology_replay; [done|apply same_topology_refl]. }
  rewrite res_prepend. apply IH.
  - by eapply wf_mol_same_topology.
  - by eapply known_elements_same_topology.
  - intros idx' Hin. destruct (same_topology_length _ _ Hst) as [-> _].
    apply Hr. by right.
Qed.

(** X12. On a well-formed molecule all of whose elements the periodic
    table knows, the loop over the atoms never raises, so that the routine
    can fail in one way only: it returns normally when the sanitizer accepts
    the molecule the pass leaves, and raises the failure of the sanitizer
    otherwise. *)
Theorem known_elements_pass_succeeds m :
  wf_mol m → known_elements m →
  res (repair_pass m) = Ok tt ∧
  (res (update_bonds_and_charges m) = Ok tt ↔
   is_Some (sanitize (mol_of (repair_pass m)))) ∧
  (∀ e, res (update_bonds_and_charges m) = Raise e → e = SanitizeFailure).
Proof.
  intros Hwf Hk.
  assert (res (repair_pass m) = Ok tt) as Hres.
  { rewrite repair_pass_eq. apply for_atoms_ok; [done..|].
    intros idx Hin%elem_of_seq. lia. }
  split; [done|]. rewrite update_bonds_and_charges_eq.
  destruct (repair_pass m) as [[r m1] t1].
  unfold res, mol_of in *; simpl in *. subst r.
  rewrite SanitizeMol_eq. destruct (sanitize m1) as [m'|]; simpl.
  - split; [by split; eauto|done].
  - split; [split; [done|by intros [? ?]]|]. by intros e [= <-].
Qed.

End KnownElements.

End RDKit.

(** ** The routine at work on small molecules *)

Lemma organic_valences_nonempty z valences :
  organic_valences z = Some valences → valences ≠ [].
Proof.
  unfold organic_valences.
  do 17 (destruct z as [|z]; [by intros [= <-]|]).
  done.
Qed.

Lemma formaldehyde_wf : wf_mol formaldehyde.
Proof. repeat constructor; simpl; lia. Qed.

Lemma formaldehyde_settled : settled organic_valences formaldehyde.
Proof.
  intros idx a Ha.
  destruct idx as [|[|[|[|idx]]]]; simpl in Ha; [..|done];
    injection Ha as <-; eexists; (split; [reflexivity|by left]).
Qed.

(** Formaldehyde: the oxygen is the first neighbour of the carbon and both
    miss one bond, so the C-O bond becomes double. *)
Lemma shared_deficit_upgrades_bond_witness :
  1%nat ∈ neighbors_of formaldehyde_in 0 ∧
  organic_valences (AtomicNum (atom_at formaldehyde_in 1)) = Some [2] ∧
  common_electrons (list_to_set [1]) (deficits formaldehyde_in 1 [2]) = Some 1 ∧
  let x := scan_neighbors organic_valences bond_order_sum all_sound
             0 [1] 3 1 [1; 2; 3]%nat formaldehyde_in in
  ∃ b, res x = Ok tt ∧
       bond_type_at (mol_of x) b = Some DOUBLE ∧
       charges (mol_of x) = charges formaldehyde_in.
Proof.
  assert (1%nat ∈ neighbors_of formaldehyde_in 0) as H1 by (by left).
  assert (organic_valences (AtomicNum (atom_at formaldehyde_in 1)) = Some [2])
    as H2 by reflexivity.
  assert (common_electrons (list_to_set [1]) (deficits formaldehyde_in 1 [2])
          = Some 1) as H3 by (vm_compute; reflexivity).
  split_and!; [done..|].
  destruct (shared_deficit_upgrades_bond organic_valences bond_order_sum
              all_sound 0 [1] 3 1 1 [2; 3]%nat formaldehyde_in [2] 1 H1 H2 H3)
    as (b & bd & _ & _ & _ & Hres & _ & _ & Hty & Hch); [by left|].
  exists b. split_and!; [exact Hres|exact Hty|exact Hch].
Defined.

(** Ammonium: nitrogen has the single valence 3 and four bonds, so it takes
    the charge +1. *)
Lemma single_option_negative_charge_witness :
  organic_valences (AtomicNum (atom_at ammonium_in 0)) = Some [3] ∧
  TotalValence (atom_at ammonium_in 0) > 3 ∧
  let x := visit_atom organic_valences bond_order_sum all_sound 0 ammonium_in in
  res x = Ok tt ∧
  log_of x = [EvGetTotalValence 0; EvGetValenceList 7;
              EvSetFormalCharge 0 1; EvUpdatePropertyCache false] ∧
  bonds (mol_of x) = bonds ammonium_in ∧
  charge_at (mol_of x) 0 = Some 1.
Proof.
  assert (organic_valences (AtomicNum (atom_at ammonium_in 0)) = Some [3])
    as H1 by reflexivity.
  assert (TotalValence (atom_at ammonium_in 0) > 3) as H2 by (simpl; lia).
  split_and!; [done..|].
  destruct (single_option_negative_charge organic_valences bond_order_sum
              all_sound 0 ammonium_in 3 H1 H2)
    as (Hres & _ & Hlog & Hb & Hch & _).
  split_and!; [exact Hres|exact Hlog|exact Hb|].
  apply Hch. simpl; lia.
Defined.

(** The methyl group: no hydrogen shares the deficit of the carbon, and at
    the last hydrogen the carbon takes the charge -1. *)
Lemma empty_intersection_fallback_witness :
  head [1] = Some 1 ∧
  organic_valences (AtomicNum (atom_at methyl_in 3)) = Some [1] ∧
  common_electrons (list_to_set [1]) (deficits methyl_in 3 [1]) = None ∧
  (let x := scan_neighbors organic_valences bond_order_sum all_sound
              0 [1] 3 3 [3%nat] methyl_in in
   res x = Ok tt ∧
   bonds (mol_of x) = bonds methyl_in ∧
   charge_at (mol_of x) 0 = Some (-1)) ∧
  scan_neighbors organic_valences bond_order_sum all_sound
    0 [1] 3 1 [3; 2]%nat methyl_in =
  prepend [EvGetTotalValence 3; EvGetValenceList 1]
    (scan_neighbors organic_valences bond_order_sum all_sound
       0 [1] 3 2 [2%nat] methyl_in).
Proof.
  assert (organic_valences (AtomicNum (atom_at methyl_in 3)) = Some [1])
    as H2 by reflexivity.
  assert (common_electrons (list_to_set [1]) (deficits methyl_in 3 [1]) = None)
    as H3 by (vm_compute; reflexivity).
  split_and!; [done..| |].
  - destruct (empty_intersection_fallback organic_valences bond_order_sum
                all_sound 0 [1] 1 3 1 3 [2%nat] methyl_in [1] eq_refl H2 H3)
      as [(Hres & _ & _ & Hb & Hch & _) _].
    split_and!; [exact Hres|exact Hb|]. apply Hch. simpl; lia.
  - destruct (empty_intersection_fallback organic_valences bond_order_sum
                all_sound 0 [1] 1 3 1 3 [2%nat] methyl_in [1] eq_refl H2 H3)
      as [_ Hskip].
    apply Hskip. lia.
Defined.

(** The carbon of [phosphaalkyne_in] misses one bond and so does the
    phosphorus at valence 5: the visit of the carbon sets their triple bond
    to double. The visit of the phosphorus then finds the nitrogen first and
    makes the P-N bond triple, so the C-P bond stays double. *)
Lemma triple_bond_lowered :
  ¬ bond_orders_never_decrease organic_valences bond_order_sum all_sound
      phosphaalkyne_in.
Proof.
  intros H.
  assert (bond_types
            (mol_of (repair_pass organic_valences bond_order_sum all_sound
                       phosphaalkyne_in)) = [TRIPLE; DOUBLE]) as Hafter
    by (vm_compute; reflexivity).
  specialize (H 1%nat TRIPLE DOUBLE eq_refl).
  unfold bond_type_at in H. rewrite <- list_lookup_fmap in H.
  fold (bond_types (mol_of (repair_pass organic_valences bond_order_sum
                              all_sound phosphaalkyne_in))) in H.
  rewrite Hafter in H. specialize (H eq_refl). simpl in H. lia.
Qed.

Lemma bond_order_not_lowered_witness :
  bond_type_at formaldehyde_in 0 = Some SINGLE ∧
  SINGLE ≠ TRIPLE ∧
  ∃ t1, bond_type_at
          (mol_of (repair_pass organic_valences bond_order_sum all_sound
                     formaldehyde_in)) 0 = Some t1 ∧
        bond_order_x2 SINGLE ≤ bond_order_x2 t1.
Proof.
  assert (SINGLE ≠ TRIPLE) as H2 by discriminate.
  split_and!; [reflexivity|exact H2|].
  destruct (bond_order_not_lowered organic_valences bond_order_sum all_sound
              check_sound formaldehyde_in 0 SINGLE eq_refl H2)
    as (t1 & Hb & _ & Hle).
  exists t1. split; [exact Hb|exact Hle].
Defined.

Lemma sanitize_once_at_end_witness :
  (∀ z valences, organic_valences z = Some valences → valences ≠ []) ∧
  let x := update_bonds_and_charges organic_valences bond_order_sum all_sound
             check_sound formaldehyde_in in
  sanitize_count (log_of x) = 1%nat ∧
  (∀ strict, EvUpdatePropertyCache strict ∈ log_of x → strict = false) ∧
  last (log_of x) = Some EvSanitizeMol ∧
  res x = Ok tt.
Proof.
  split; [exact organic_valences_nonempty|].
  pose proof (sanitize_once_at_end organic_valences bond_order_sum all_sound
                check_sound organic_valences_nonempty formaldehyde_in) as H.
  cbv zeta in H. destruct H as (_ & Hperm & Hend).
  assert (res (repair_pass organic_valences bond_order_sum all_sound
                 formaldehyde_in) = Ok tt) as Hres by (vm_compute; reflexivity).
  rewrite Hres in Hend. destruct Hend as (Hlog & Hone & Hsan).
  cbv zeta. split_and!; [exact Hone|exact Hperm| |].
  - rewrite Hlog. apply last_snoc.
  - vm_compute. reflexivity.
Defined.

Lemma repaired_molecule_unchanged_witness :
  wf_mol formaldehyde ∧
  settled organic_valences formaldehyde ∧
  recompute bond_order_sum formaldehyde = formaldehyde ∧
  is_Some (check_sound formaldehyde) ∧
  let x := update_bonds_and_charges organic_valences bond_order_sum all_sound
             check_sound formaldehyde in
  res x = Ok tt ∧ mol_of x = formaldehyde ∧ mutation_count (log_of x) = 0%nat.
Proof.
  assert (recompute bond_order_sum formaldehyde = formaldehyde) as H3
    by reflexivity.
  assert (check_sound formaldehyde = Some formaldehyde) as H4
    by (vm_compute; reflexivity).
  assert (is_Some (check_sound formaldehyde)) as H4' by (by rewrite H4).
  split_and!; [exact formaldehyde_wf|exact formaldehyde_settled|done..|].
  destruct (repaired_molecule_unchanged organic_valences bond_order_sum
              all_sound check_sound formaldehyde
              formaldehyde_wf formaldehyde_settled H3 H4')
    as (_ & _ & _ & _ & Hres & Hn & _ & Hm).
  split_and!; [exact Hres|exact (Hm H4)|exact Hn].
Defined.

(** Two sulfur atoms with three bonds each share the deficits -1, 1 and 3:
    the least is -1, and the turn ends the loop without changing anything. *)
Lemma other_shared_deficit_noop_witness :
  organic_valences (AtomicNum (atom_at sulfurs_in 1)) = Some [2; 4; 6] ∧
  common_electrons (list_to_set [-1; 1; 3]) (deficits sulfurs_in 1 [2; 4; 6])
    = Some (-1) ∧
  let x := scan_neighbors organic_valences bond_order_sum all_sound
             0 [-1; 1; 3] 3 1 [1; 2; 3]%nat sulfurs_in in
  res x = Ok tt ∧
  log_of x = [EvGetTotalValence 1; EvGetValenceList 16;
              EvGetBondBetweenAtoms 0 1; EvUpdatePropertyCache false] ∧
  bond_types (mol_of x) = bond_types sulfurs_in ∧
  charges (mol_of x) = charges sulfurs_in.
Proof.
  assert (organic_valences (AtomicNum (atom_at sulfurs_in 1)) = Some [2; 4; 6])
    as H1 by reflexivity.
  assert (common_electrons (list_to_set [-1; 1; 3])
            (deficits sulfurs_in 1 [2; 4; 6]) = Some (-1)) as H2
    by (vm_compute; reflexivity).
  split_and!; [done..|].
  destruct (other_shared_deficit_noop organic_valences bond_order_sum all_sound)
    as [_ Hnoop].
  destruct (Hnoop 0%nat [-1; 1; 3] 3%nat 1%nat 1%nat [2; 3]%nat sulfurs_in
              [2; 4; 6] (-1) H1 H2) as (Hres & _ & Hlog & Hb & Hch);
    [lia..|].
  split_and!; [exact Hres|exact Hlog|exact Hb|exact Hch].
Defined.

(** A carbon next to an iron atom: the lookup for iron fails, and the visit
    of the carbon leaves the molecule as it was. *)
Lemma raising_visit_changes_nothing_witness :
  res (visit_atom organic_valences bond_order_sum all_sound 0 iron_carbon_in)
    = Raise (LookupFailure 26) ∧
  mol_of (visit_atom organic_valences bond_order_sum all_sound 0 iron_carbon_in)
    = iron_carbon_in.
Proof.
  assert (res (visit_atom organic_valences bond_order_sum all_sound 0
                 iron_carbon_in) = Raise (LookupFailure 26)) as H1
    by (vm_compute; reflexivity).
  split; [exact H1|].
  exact (proj1 (raising_visit_changes_nothing organic_valences bond_order_sum
                  all_sound 0 iron_carbon_in (LookupFailure 26) H1)).
Defined.

(** A lone oxygen atom misses two bonds and is left alone. *)
Lemma isolated_atom_untouched_witness :
  organic_valences (AtomicNum (atom_at oxygen_in 0)) = Some [2] ∧
  single_negative (deficits oxygen_in 0 [2]) = false ∧
  neighbors_of oxygen_in 0 = [] ∧
  visit_atom organic_valences bond_order_sum all_sound 0 oxygen_in =
  (Ok tt, oxygen_in,
   [EvGetTotalValence 0; EvGetValenceList 8; EvGetNeighbors 0]).
Proof.
  split_and!; [reflexivity..|].
  exact (isolated_atom_untouched organic_valences bond_order_sum all_sound
           0 oxygen_in [2] eq_refl eq_refl eq_refl).
Defined.

Lemma formaldehyde_h_first_skipped :
  Forall (skipped organic_valences formaldehyde_h_first_in
            (deficits formaldehyde_h_first_in 0 [4])) [2; 3]%nat.
Proof.
  repeat constructor; exists [1]; (split; [reflexivity|]);
    right; vm_compute; reflexivity.
Qed.

(** Formaldehyde with the hydrogens first: the carbon passes over both
    hydrogens and raises the bond to the oxygen, the third bond. *)
Lemma first_compatible_neighbor_witness :
  organic_valences (AtomicNum (atom_at formaldehyde_h_first_in 0)) = Some [4] ∧
  single_negative (deficits formaldehyde_h_first_in 0 [4]) = false ∧
  neighbors_of formaldehyde_h_first_in 0 = [2; 3]%nat ++ 1%nat :: [] ∧
  Forall (skipped organic_valences formaldehyde_h_first_in
            (deficits formaldehyde_h_first_in 0 [4])) [2; 3]%nat ∧
  organic_valences (AtomicNum (atom_at formaldehyde_h_first_in 1)) = Some [2] ∧
  common_electrons (list_to_set (deficits formaldehyde_h_first_in 0 [4]))
    (deficits formaldehyde_h_first_in 1 [2]) = Some 1 ∧
  ∃ b,
    bond_between formaldehyde_h_first_in 0 1 = Some b ∧
    mol_of (visit_atom organic_valences bond_order_sum all_sound 0
              formaldehyde_h_first_in) =
    recompute bond_order_sum (set_bond_type b DOUBLE formaldehyde_h_first_in).
Proof.
  assert (common_electrons
            (list_to_set (deficits formaldehyde_h_first_in 0 [4]))
            (deficits formaldehyde_h_first_in 1 [2]) = Some 1) as Hc
    by (vm_compute; reflexivity).
  split_and!; [reflexivity..|exact formaldehyde_h_first_skipped|reflexivity
              |exact Hc|].
  destruct (first_compatible_neighbor organic_valences bond_order_sum all_sound
              0 formaldehyde_h_first_in [4] [2; 3]%nat 1%nat [] [2] 1
              eq_refl eq_refl eq_refl formaldehyde_h_first_skipped eq_refl Hc
              (or_introl eq_refl)) as (b & Hb & Hvisit).
  exists b. split; [exact Hb|]. by rewrite Hvisit.
Defined.

Lemma methyl_skipped :
  Forall (skipped organic_valences methyl_in (deficits methyl_in 0 [4]))
    [1; 2]%nat.
Proof.
  repeat constructor; exists [1]; (split; [reflexivity|]);
    right; vm_compute; reflexivity.
Qed.

(** The methyl group: the last hydrogen shares nothing with the carbon,
    which takes the charge -1. *)
Lemma fallback_depends_on_last_neighbor_witness :
  organic_valences (AtomicNum (atom_at methyl_in 0)) = Some [4] ∧
  single_negative (deficits methyl_in 0 [4]) = false ∧
  head (deficits methyl_in 0 [4]) = Some 1 ∧
  neighbors_of methyl_in 0 = [1; 2]%nat ++ [3%nat] ∧
  Forall (skipped organic_valences methyl_in (deficits methyl_in 0 [4]))
    [1; 2]%nat ∧
  organic_valences (AtomicNum (atom_at methyl_in 3)) = Some [1] ∧
  mol_of (visit_atom organic_valences bond_order_sum all_sound 0 methyl_in) =
  recompute bond_order_sum (set_charge 0 (-1) methyl_in).
Proof.
  split_and!; [reflexivity..|exact methyl_skipped|reflexivity|].
  destruct (fallback_depends_on_last_neighbor organic_valences bond_order_sum
              all_sound 0 methyl_in [4] [1; 2]%nat 3%nat [1] 1
              eq_refl eq_refl eq_refl eq_refl methyl_skipped eq_refl)
    as [Hnone _].
  rewrite Hnone; [reflexivity|]. vm_compute. reflexivity.
Defined.

(** ** Residue numbers *)













(** ** Old partial charges *)

Lemma assign_old_charges_lookup {C : Type} len_old (old : list C) :
  ∀ i n mH k,
    (i + length old ≤ len_old)%nat →
    (i + n = length mH)%nat →
    assign_old_charges len_old i (zip (seq i n) old) mH !! k =
    if decide (i ≤ k < i + length old ∧ k < length mH)%nat
    then old !! (k - i)%nat else mH !! k.
Proof.
  induction old as [|c old IH]; intros i n mH k Hlen Hn; simpl in *.
  { destruct n; simpl; rewrite decide_False by lia; done. }
  destruct n as [|n]; simpl.
  { rewrite decide_False by lia. done. }
  rewrite decide_False by lia.
  rewrite (IH (S i) n) by (rewrite ?length_insert; lia).
  rewrite length_insert.
  destruct (decide (k = i)) as [->|Hne].
  - rewrite decide_False by lia. rewrite decide_True by lia.
    rewrite Nat.sub_diag. simpl. apply list_lookup_insert_eq. lia.
  - rewrite list_lookup_insert_ne by done.
    repeat case_decide; try lia; try done.
    by replace (k - i)%nat with (S (k - S i)) by lia.
Qed.

(** X11. The charge loop of [pdbqt_to_mol2] gives every atom that has a
    counterpart in the molecule read from the file the partial charge of
    that counterpart, and leaves the atoms after them, the added hydrogens,
    with the charge they have; the number of atoms is unchanged. The loop
    always runs through all of [zip(mH.atoms, m.atoms)]: its [break] at
    [i == len(m.atoms)] cuts nothing off. *)
Theorem old_charges_reassigned {C : Type} (mH old : list C) :
  length (reassign_charges mH old) = length mH ∧
  (∀ k, (k < length old)%nat → (k < length mH)%nat →
        reassign_charges mH old !! k = old !! k) ∧
  (∀ k, (length old ≤ k)%nat →
        reassign_charges mH old !! k = mH !! k) ∧
  reassign_charges mH old = take (length mH) old ++ drop (length old) mH.
Proof.
  assert (∀ k, reassign_charges mH old !! k =
               if decide (k < length old ∧ k < length mH)%nat
               then old !! k else mH !! k) as Hlk.
  { intros k. unfold reassign_charges.
    rewrite assign_old_charges_lookup by lia.
    rewrite Nat.sub_0_r. repeat case_decide; try lia; done. }
  assert (reassign_charges mH old
          = take (length mH) old ++ drop (length old) mH) as Heq.
  { apply list_eq. intros k. rewrite Hlk.
    destruct (decide (k < length old ∧ k < length mH)%nat) as [[H1 H2]|Hn].
    - rewrite lookup_app_l by (rewrite length_take; lia).
      by rewrite lookup_take_lt.
    - destruct (decide (k < length mH)%nat) as [Hk|Hk].
      + assert (length old ≤ k)%nat by lia.
        rewrite lookup_app_r by (rewrite length_take; lia).
        rewrite length_take, lookup_drop. f_equal. lia.
      + rewrite (lookup_ge_None_2 mH) by lia. symmetry.
        apply lookup_ge_None_2.
        rewrite length_app, length_take, length_drop. lia. }
  split_and!; [|intros k H1 H2; rewrite Hlk; by rewrite decide_True by lia
              |intros k Hk; rewrite Hlk; by rewrite decide_False by lia|done].
  rewrite Heq, length_app, length_take, length_drop. lia.
Qed.

Lemma formaldehyde_in_wf : wf_mol formaldehyde_in.
Proof. repeat constructor; simpl; lia. Qed.

Lemma formaldehyde_in_known : known_elements organic_valences formaldehyde_in.
Proof.
  intros idx a Ha.
  destruct idx as [|[|[|[|idx]]]]; simpl in Ha; [..|done];
    injection Ha as <-; by eexists.
Qed.

(** Formaldehyde read with single bonds: all its elements are known, the
    pass ends normally, and the routine returns normally. *)
Lemma known_elements_pass_succeeds_witness :
  (∀ z valences, organic_valences z = Some valences → valences ≠ []) ∧
  wf_mol formaldehyde_in ∧
  known_elements organic_valences formaldehyde_in ∧
  res (repair_pass organic_valences bond_order_sum all_sound formaldehyde_in)
    = Ok tt.
Proof.
  split_and!; [exact organic_valences_nonempty|exact formaldehyde_in_wf
              |exact formaldehyde_in_known|].
  exact (proj1 (known_elements_pass_succeeds organic_valences bond_order_sum
                  all_sound check_sound organic_valences_nonempty
                  formaldehyde_in formaldehyde_in_wf formaldehyde_in_known)).
Defined.
